(** * Signaling and session coordination of creator.v3

    A shallow embedding of
    - [src/server/signaling-server.js]    (stream registry and relay),
    - [src/lib/webrtc-stream.ts]          (BroadcastChannel peer-connection manager),
    - the WebSocket [WebRTCStreamer]      (session coordinator with reconnect),
    - [StreamPlayer]'s [connectToStream]  (viewer-side retry loop),
    - [src/lib/streaming/webrtc-manager.ts] (stream manager, bitrate controller),
    together with the properties of the specification that concern them. *)

From Stdlib Require Import ZArith QArith Ascii String DecimalString DecimalNat DecimalFacts.
From stdpp Require Import gmap strings list fin_maps sorting.

Local Open Scope string_scope.
Local Open Scope list_scope.

(** ** JavaScript built-ins used by the sources *)

Module Js.

(** A decoded JSON field as far as the server inspects it: absent
    ([undefined]), a string, or any other value, of which only the
    truthiness is ever observed. *)
Inductive Val :=
| Undefined
| Str (s : string)
| Other (truthy_val : bool).

Definition truthy (v : Val) : bool :=
  match v with
  | Undefined => false
  | Str s => negb (String.eqb s "")
  | Other b => b
  end.

(** [`${n}`] for a non-negative integer [n]. *)
Definition of_nat (n : nat) : string := NilEmpty.string_of_uint (Nat.to_uint n).
Definition of_N (n : N) : string := NilEmpty.string_of_uint (N.to_uint n).

(** [s.replace(pat, rep)] with a string pattern: only the first
    occurrence, searched from the left, is replaced. *)
Fixpoint drop (n : nat) (s : string) : string :=
  match n, s with
  | O, _ => s
  | S n', String _ s' => drop n' s'
  | S _, EmptyString => EmptyString
  end.

Fixpoint replace (pat rep s : string) : string :=
  if String.prefix pat s then rep ++ drop (String.length pat) s
  else match s with
       | EmptyString => EmptyString
       | String c s' => String c (replace pat rep s')
       end.

(** White space and line terminators stripped by [parseInt]
    (ECMAScript [TrimString]); strings are UTF-8 byte sequences, so the
    non-ASCII members are matched by their encodings. *)
Definition ascii_ws (c : ascii) : bool :=
  let n := nat_of_ascii c in
  (n =? 9)%nat || (n =? 10)%nat || (n =? 11)%nat || (n =? 12)%nat
  || (n =? 13)%nat || (n =? 32)%nat.

Definition ws_prefix_len (s : string) : nat :=
  match s with
  | EmptyString => 0
  | String c0 r0 =>
    if ascii_ws c0 then 1
    else match nat_of_ascii c0, r0 with
    | 194, String c1 _ => if (nat_of_ascii c1 =? 160)%nat then 2 else 0
    | 225, String c1 (String c2 _) =>
      if (nat_of_ascii c1 =? 154)%nat && (nat_of_ascii c2 =? 128)%nat then 3 else 0
    | 226, String c1 (String c2 _) =>
      let n1 := nat_of_ascii c1 in
      let n2 := nat_of_ascii c2 in
      if (n1 =? 128)%nat
         && (((128 <=? n2)%nat && (n2 <=? 138)%nat)
             || (n2 =? 168)%nat || (n2 =? 169)%nat || (n2 =? 175)%nat)
      then 3
      else if (n1 =? 129)%nat && (n2 =? 159)%nat then 3 else 0
    | 227, String c1 (String c2 _) =>
      if (nat_of_ascii c1 =? 128)%nat && (nat_of_ascii c2 =? 128)%nat then 3 else 0
    | 239, String c1 (String c2 _) =>
      if (nat_of_ascii c1 =? 187)%nat && (nat_of_ascii c2 =? 191)%nat then 3 else 0
    | _, _ => 0
    end
  end.

Fixpoint trim_start_fuel (fuel : nat) (s : string) : string :=
  match fuel with
  | O => s
  | S fuel' =>
    match ws_prefix_len s with
    | O => s
    | k => trim_start_fuel fuel' (drop k s)
    end
  end.

Definition trim_start (s : string) : string := trim_start_fuel (String.length s) s.

(** Value of a digit in the given radix (10 or 16), if it is one. *)
Definition digit_val (radix : Z) (c : ascii) : option Z :=
  let n := Z.of_nat (nat_of_ascii c) in
  let v :=
    if (48 <=? n)%Z && (n <=? 57)%Z then Some (n - 48)%Z
    else if (97 <=? n)%Z && (n <=? 102)%Z then Some (n - 87)%Z
    else if (65 <=? n)%Z && (n <=? 70)%Z then Some (n - 55)%Z
    else None in
  match v with
  | Some d => if (d <? radix)%Z then Some d else None
  | None => None
  end.

(** Longest prefix of radix digits, read most significant first;
    [None] when the prefix is empty. *)
Fixpoint digits (radix : Z) (acc : option Z) (s : string) : option Z :=
  match s with
  | EmptyString => acc
  | String c s' =>
    match digit_val radix c with
    | Some d => digits radix (Some (radix * default 0%Z acc + d)%Z) s'
    | None => acc
    end
  end.

(** [parseInt(s)] without a radix argument; [None] is [NaN]. The
    result is the mathematical integer: the rounding to a double
    beyond 2^53 is not modelled, and [-0] is [0] (both index an array
    alike). *)
Definition parseInt (s : string) : option Z :=
  let s1 := trim_start s in
  let '(sign, s2) :=
    match s1 with
    | String "-" r => ((-1)%Z, r)
    | String "+" r => (1%Z, r)
    | _ => (1%Z, s1)
    end in
  let '(radix, s3) :=
    match s2 with
    | String "0" (String "x" r) => (16%Z, r)
    | String "0" (String "X" r) => (16%Z, r)
    | _ => (10%Z, s2)
    end in
  match digits radix None s3 with
  | Some n => Some (sign * n)%Z
  | None => None
  end.

(** [arr[i]] for a number [i] ([None] is [NaN]): [undefined] unless
    [i] is an integer index in range. *)
Definition array_get {A} (arr : list A) (i : option Z) : option A :=
  match i with
  | Some z => if (0 <=? z)%Z then arr !! Z.to_nat z else None
  | None => None
  end.

(** [arr.indexOf(x)]; [None] is [-1]. *)
Fixpoint indexOf `{EqDecision A} (arr : list A) (x : A) : option nat :=
  match arr with
  | [] => None
  | y :: arr' => if decide (y = x) then Some 0 else S <$> indexOf arr' x
  end.

(** The characters that [`${n}`] prints, with their values. *)
Inductive digit_char : ascii → Z → Prop :=
| digit0 : digit_char "0" 0
| digit1 : digit_char "1" 1
| digit2 : digit_char "2" 2
| digit3 : digit_char "3" 3
| digit4 : digit_char "4" 4
| digit5 : digit_char "5" 5
| digit6 : digit_char "6" 6
| digit7 : digit_char "7" 7
| digit8 : digit_char "8" 8
| digit9 : digit_char "9" 9.





End Js.

(** ** Handlers as state-passing procedures

    A handler runs to completion on the state it is given: it returns
    normally or throws, and in both cases leaves a state behind; what
    it did before throwing stays done. *)

Module Proc.

Inductive Completion (X A : Type) :=
| Normal (a : A)
| Throw (e : X).
Arguments Normal {X A} a.
Arguments Throw {X A} e.

Definition M (S X A : Type) : Type := S → Completion X A * S.

#[global] Instance M_ret {S X} : MRet (M S X) := λ A a st, (Normal a, st).
#[global] Instance M_bind {S X} : MBind (M S X) := λ A B f m st,
  match m st with
  | (Normal a, st') => f a st'
  | (Throw e, st') => (Throw e, st')
  end.

Definition throw {S X A} (e : X) : M S X A := λ st, (Throw e, st).

(** [try { body } catch (e) { handler }] *)
Definition try_catch {S X A} (body : M S X A) (handler : X → M S X A) : M S X A := λ st,
  match body st with
  | (Normal a, st') => (Normal a, st')
  | (Throw e, st') => handler e st'
  end.

Definition get {S X} : M S X S := λ st, (Normal st, st).
Definition gets {S X A} (f : S → A) : M S X A := λ st, (Normal (f st), st).
Definition modify {S X} (f : S → S) : M S X () := λ st, (Normal (), f st).

Definition when {S X} (b : bool) (body : M S X ()) : M S X () :=
  if b then body else mret ().

(** [xs.forEach(f)] *)
Fixpoint forEach {S X A} (xs : list A) (f : A → M S X ()) : M S X () :=
  match xs with
  | [] => mret ()
  | x :: xs' => f x ;; forEach xs' f
  end.

End Proc.

(** ** The signaling server: [src/server/signaling-server.js] *)

Module Server.

(** A [ws] object, compared by identity. *)
Definition Conn := nat.

Inductive Role := Broadcaster | Viewer.

Inductive ReadyState := CONNECTING | OPEN | CLOSING | CLOSED.

#[global] Instance Role_eq_dec : EqDecision Role.
Proof. solve_decision. Defined.

#[global] Instance ReadyState_eq_dec : EqDecision ReadyState.
Proof. solve_decision. Defined.

(** [{ broadcaster: ws | null, viewers: Set<ws> }]. A JavaScript [Set]
    iterates in insertion order, which [getViewerId] and
    [findViewerById] observe through [Array.from], so the set is kept
    as the list of its members in insertion order. *)
Record Session := { broadcaster : option Conn; viewers : list Conn }.

Definition set_add (ws : Conn) (vs : list Conn) : list Conn :=
  if decide (ws ∈ vs) then vs else vs ++ [ws].

Definition set_delete (ws : Conn) (vs : list Conn) : list Conn :=
  filter (λ v, v ≠ ws) vs.

(** A stream id is a string on the wire ([streamId: string]); [None]
    stands for an absent field ([undefined]) and for the initial
    [null] of [currentStreamId], both falsy. *)
Abbreviation StreamId := (option string).

Definition sid_truthy (k : StreamId) : bool :=
  match k with
  | Some s => negb (String.eqb s "")
  | None => false
  end.

(** A JSON payload carried in [data]; [None] is an absent field. *)
Abbreviation Json := string.

(** The fields of a decoded message that the server reads. *)
Record Msg := {
  type : Js.Val;
  streamId : StreamId;
  data : option Json;
  targetViewerId : Js.Val
}.

(** What arrives on the socket, by how [JSON.parse] and the first
    property read treat it. *)
Inductive Frame :=
| FrameInvalid                 (* not JSON: [JSON.parse] throws *)
| FrameNull                    (* the JSON text [null] *)
| FramePrimitive               (* a number, string, boolean or array *)
| FrameObject (m : Msg).

(** A message written by the server. *)
Record OutMsg := {
  out_type : string;
  out_data : option Json;
  out_viewerId : option string
}.

(** The calls a handler can make on a socket or on the console.
    [CloseSocket] stands for [c.close()] and [c.terminate()]. *)
Inductive Effect :=
| Send (to : Conn) (m : OutMsg)   (* [to.send(JSON.stringify(m))] *)
| CloseSocket (c : Conn)
| ConsoleError (what : string).

Inductive Exn := SyntaxError | TypeError.

(** The variables a handler can touch: the module-level [streams] map,
    the two variables [currentStreamId] and [role] of the connection's
    closure, and what it has written so far. [console.log] calls are
    left out. *)
Record State := {
  streams : gmap StreamId Session;
  currentStreamId : StreamId;
  role : option Role;
  effects : list Effect
}.

(** What the handler reads from its surroundings: the [readyState] of
    every socket, and [Date.now()]. *)
Record Env := { readyState : Conn → ReadyState; now : N }.

Import Proc.

Abbreviation M := (Proc.M State Exn).

Definition get_streams : M (gmap StreamId Session) := gets streams.
Definition get_currentStreamId : M StreamId := gets currentStreamId.
Definition get_role : M (option Role) := gets role.

Definition set_streams (m : gmap StreamId Session) : M () := modify (λ st,
  {| streams := m; currentStreamId := currentStreamId st;
     role := role st; effects := effects st |}).
Definition set_currentStreamId (k : StreamId) : M () := modify (λ st,
  {| streams := streams st; currentStreamId := k;
     role := role st; effects := effects st |}).
Definition set_role (r : option Role) : M () := modify (λ st,
  {| streams := streams st; currentStreamId := currentStreamId st;
     role := r; effects := effects st |}).
Definition add_effects (st : State) (es : list Effect) : State :=
  {| streams := streams st; currentStreamId := currentStreamId st;
     role := role st; effects := effects st ++ es |}.

Definition emit (e : Effect) : M () := modify (λ st, add_effects st [e]).

(** [to.send(...)]: on a socket that is not open it does nothing and
    does not throw (as in [ws] 7 and later); the call is recorded
    either way. *)
Definition send (to : Conn) (m : OutMsg) : M () := emit (Send to m).

Definition is_open (env : Env) (c : Conn) : bool :=
  bool_decide (readyState env c = OPEN).

(** [JSON.parse(message)] followed by the reads of [data.streamId],
    [data.type], ...: a primitive or an array has none of the fields,
    and reading a property of [null] throws. *)
Definition no_fields : Msg :=
  {| type := Js.Undefined; streamId := None; data := None;
     targetViewerId := Js.Undefined |}.

Definition JSON_parse (f : Frame) : M Msg :=
  match f with
  | FrameInvalid => throw SyntaxError
  | FrameNull => throw TypeError
  | FramePrimitive => mret no_fields
  | FrameObject m => mret m
  end.

(** [function getViewerId(ws, streamId)] *)
Definition getViewerId (env : Env) (m : gmap StreamId Session)
    (ws : Conn) (k : StreamId) : string :=
  match m !! k with
  | Some s =>
    match Js.indexOf (viewers s) ws with
    | Some index => "viewer-" ++ Js.of_nat index
    | None => "viewer-" ++ Js.of_N (now env)
    end
  | None => "viewer-" ++ Js.of_N (now env)
  end.

(** [function findViewerById(viewers, viewerId)]; [viewerId] is
    truthy at the only call site, and [.replace] exists on strings
    only. *)
Definition findViewerById (vs : list Conn) (viewerId : Js.Val) : M (option Conn) :=
  match viewerId with
  | Js.Str s => mret (Js.array_get vs (Js.parseInt (Js.replace "viewer-" "" s)))
  | _ => throw TypeError
  end.

Definition empty_session : Session := {| broadcaster := None; viewers := [] |}.

Definition create_if_absent (k : StreamId) : M () :=
  m ← get_streams;
  when (negb (bool_decide (is_Some (m !! k)))) (set_streams (<[k := empty_session]> m)).

(** Field updates of the session object stored under [k]; the callers
    have just made sure that it exists. *)
Definition update_session (k : StreamId) (f : Session → Session) : M () :=
  m ← get_streams; set_streams (alter f k m).

Definition with_broadcaster (b : option Conn) (s : Session) : Session :=
  {| broadcaster := b; viewers := viewers s |}.
Definition with_viewers (f : list Conn → list Conn) (s : Session) : Session :=
  {| broadcaster := broadcaster s; viewers := f (viewers s) |}.

Definition session_viewers (m : gmap StreamId Session) (k : StreamId) : list Conn :=
  from_option viewers [] (m !! k).
Definition session_broadcaster (m : gmap StreamId Session) (k : StreamId) : option Conn :=
  m !! k ≫= broadcaster.

Definition notice (t : string) : OutMsg :=
  {| out_type := t; out_data := None; out_viewerId := None |}.

Definition join_as_broadcaster (ws : Conn) (d : Msg) : M () :=
  set_currentStreamId (streamId d);;
  set_role (Some Broadcaster);;
  k ← get_currentStreamId;
  create_if_absent k;;
  update_session k (with_broadcaster (Some ws));;
  m ← get_streams;
  forEach (session_viewers m k) (λ viewer, send viewer (notice "broadcaster-available")).

Definition join_as_viewer (ws : Conn) (d : Msg) : M () :=
  set_currentStreamId (streamId d);;
  set_role (Some Viewer);;
  k ← get_currentStreamId;
  create_if_absent k;;
  update_session k (with_viewers (set_add ws));;
  m ← get_streams;
  when (bool_decide (is_Some (session_broadcaster m k)))
       (send ws (notice "broadcaster-available")).

Definition request_stream (env : Env) (ws : Conn) : M () :=
  k ← get_currentStreamId;
  m ← get_streams;
  when (sid_truthy k && bool_decide (is_Some (m !! k)))
    match session_broadcaster m k with
    | Some b =>
      when (is_open env b)
        (send b {| out_type := "viewer-request"; out_data := None;
                   out_viewerId := Some (getViewerId env m ws k) |})
    | None => mret ()
    end.

Definition relay (env : Env) (ws : Conn) (t : string) (d : Msg) : M () :=
  k ← get_currentStreamId;
  m ← get_streams;
  r ← get_role;
  when (sid_truthy k && bool_decide (is_Some (m !! k)))
    match r with
    | Some Broadcaster =>
      targetViewer ← (if Js.truthy (targetViewerId d)
                      then findViewerById (session_viewers m k) (targetViewerId d)
                      else mret None);
      match targetViewer with
      | Some v =>
        send v {| out_type := t; out_data := data d; out_viewerId := None |}
      | None =>
        forEach (session_viewers m k) (λ viewer,
          when (is_open env viewer)
            (send viewer {| out_type := t; out_data := data d; out_viewerId := None |}))
      end
    | Some Viewer =>
      match session_broadcaster m k with
      | Some b =>
        when (is_open env b)
          (send b {| out_type := t; out_data := data d;
                     out_viewerId := Some (getViewerId env m ws k) |})
      | None => mret ()
      end
    | None => mret ()
    end.

Definition is_relayed (t : string) : bool :=
  String.eqb t "offer" || String.eqb t "answer" || String.eqb t "ice-candidate".

(** The [switch (data.type)] of the message handler. *)
Definition dispatch (env : Env) (ws : Conn) (d : Msg) : M () :=
  match type d with
  | Js.Str t =>
    if String.eqb t "join-as-broadcaster" then join_as_broadcaster ws d
    else if String.eqb t "join-as-viewer" then join_as_viewer ws d
    else if String.eqb t "request-stream" then request_stream env ws
    else if is_relayed t then relay env ws t d
    else mret ()
  | _ => mret ()
  end.

(** [ws.on('message', ...)]: the whole body sits in one [try] whose
    [catch] logs. *)
Definition on_message (env : Env) (ws : Conn) (f : Frame) : M () :=
  try_catch (d ← JSON_parse f; dispatch env ws d)
            (λ _, emit (ConsoleError "Error processing message:")).

(** [ws.on('close', ...)] *)
Definition on_close (env : Env) (ws : Conn) : M () :=
  k ← get_currentStreamId;
  m ← get_streams;
  r ← get_role;
  when (sid_truthy k && bool_decide (is_Some (m !! k)))
    (match r with
     | Some Broadcaster =>
       update_session k (with_broadcaster None);;
       forEach (session_viewers m k) (λ viewer,
         when (is_open env viewer) (send viewer (notice "broadcaster-left")))
     | Some Viewer => update_session k (with_viewers (set_delete ws))
     | None => mret ()
     end;;
     m' ← get_streams;
     when (negb (bool_decide (is_Some (session_broadcaster m' k)))
           && bool_decide (session_viewers m' k = []))
          (set_streams (delete k m'))).

(** [ws.on('error', ...)] only logs. *)
Definition on_error (ws : Conn) : M () := emit (ConsoleError "WebSocket error:").

(** A message of type [t] as a client writes it. *)
Definition join_msg (t : string) (k : StreamId) (dt : option Json) (tv : Js.Val) : Msg :=
  {| type := Js.Str t; streamId := k; data := dt; targetViewerId := tv |}.

(** *** Notions used to state the properties of the handlers *)

(** The session object as [on_close] leaves it before the clean-up test. *)
Definition after_close (ws : Conn) (r : option Role) (s : Session) : Session :=
  match r with
  | Some Broadcaster => with_broadcaster None s
  | Some Viewer => with_viewers (set_delete ws) s
  | None => s
  end.

(** The clean-up test [!broadcaster && viewers.size === 0]. *)
Definition is_empty (s : Session) : bool :=
  negb (bool_decide (is_Some (broadcaster s))) && bool_decide (viewers s = []).

(** The test [currentStreamId && streams.has(currentStreamId)]. *)
Definition guard (st : State) : bool :=
  sid_truthy (currentStreamId st)
  && bool_decide (is_Some (streams st !! currentStreamId st)).

(** What [targetViewerId] resolves to in a viewer set: the call of
    [findViewerById] guarded by the truthiness test of [relay]. *)
Definition resolves (vs : list Conn) (tv : Js.Val) : option Conn :=
  match tv with
  | Js.Str x =>
    if Js.truthy tv then Js.array_get vs (Js.parseInt (Js.replace "viewer-" "" x))
    else None
  | _ => None
  end.

(** The message written by the relay, without and with the sender's
    viewer id. *)
Definition relayed (t : string) (d : Msg) : OutMsg :=
  {| out_type := t; out_data := data d; out_viewerId := None |}.

Definition tagged (t : string) (d : Msg) (id : string) : OutMsg :=
  {| out_type := t; out_data := data d; out_viewerId := Some id |}.

(** [targetViewerId?: string]: absent or a string. *)
Definition well_typed_target (tv : Js.Val) : Prop :=
  match tv with Js.Other _ => False | _ => True end.

(** An effect that closes no socket. *)
Definition harmless (e : Effect) : Prop :=
  match e with CloseSocket _ => False | _ => True end.

(** A session with a broadcaster or at least one viewer. *)
Definition populated (s : Session) : Prop :=
  is_Some (broadcaster s) ∨ viewers s ≠ [].

(** Every session of the registry is populated, and its viewer list is
    a set. *)
Definition registry_ok (m : gmap StreamId Session) : Prop :=
  ∀ k s, m !! k = Some s → populated s ∧ NoDup (viewers s).

(** *** A session ["abc"] with broadcaster [0] and viewers [1] and [2] *)

Module Scenario.

Definition abc : StreamId := Some "abc".

Definition all_open : Env := {| readyState := λ _, OPEN; now := 1700000000000 |}.

(** As [all_open], but the socket of viewer [2] is closing. *)
Definition closing_2 : Env :=
  {| readyState := λ c, if decide (c = 2) then CLOSING else OPEN; now := 1700000000000 |}.

Definition two_viewers : gmap StreamId Session :=
  {[ abc := {| broadcaster := Some 0; viewers := [1; 2] |} ]}.

(** The state a handler of the broadcaster's connection starts from,
    and the state a handler of a viewer's connection starts from. *)
Definition as_broadcaster : State :=
  {| streams := two_viewers; currentStreamId := abc; role := Some Broadcaster;
     effects := [] |}.
Definition as_viewer : State :=
  {| streams := two_viewers; currentStreamId := abc; role := Some Viewer;
     effects := [] |}.

Definition offer (tv : Js.Val) : Msg :=
  {| type := Js.Str "offer"; streamId := abc; data := Some "{sdp}"; targetViewerId := tv |}.

End Scenario.

(** *** The server as a whole

    One closure per accepted connection, holding its [currentStreamId]
    and [role]; a closed connection never fires again. *)
Record Closure := {
  c_streamId : StreamId;
  c_role : option Role;
  c_alive : bool
}.

Record Server := {
  registry : gmap StreamId Session;
  closures : gmap Conn Closure
}.

Definition initial : Server := {| registry := ∅; closures := ∅ |}.

Inductive Event :=
| Connection (ws : Conn)            (* [wss.on('connection', ...)] with a fresh [ws] *)
| Message (ws : Conn) (f : Frame)
| Close (ws : Conn)
| Error (ws : Conn).

Definition enter (srv : Server) (c : Closure) : State :=
  {| streams := registry srv; currentStreamId := c_streamId c;
     role := c_role c; effects := [] |}.

Definition leave (srv : Server) (ws : Conn) (alive : bool) (st : State) : Server :=
  {| registry := streams st;
     closures := <[ws := {| c_streamId := currentStreamId st; c_role := role st;
                            c_alive := alive |}]> (closures srv) |}.

Definition run_handler (h : M ()) (alive : bool) (srv : Server) (ws : Conn)
    : Server * list Effect :=
  match closures srv !! ws with
  | Some c =>
    if c_alive c
    then let st := (h (enter srv c)).2 in (leave srv ws alive st, effects st)
    else (srv, [])
  | None => (srv, [])
  end.

Definition step (env : Env) (ev : Event) (srv : Server) : Server * list Effect :=
  match ev with
  | Connection ws =>
    match closures srv !! ws with
    | Some _ => (srv, [])
    | None =>
      ({| registry := registry srv;
          closures := <[ws := {| c_streamId := None; c_role := None; c_alive := true |}]>
                        (closures srv) |}, [])
    end
  | Message ws f => run_handler (on_message env ws f) true srv ws
  | Close ws => run_handler (on_close env ws) false srv ws
  | Error ws => run_handler (on_error ws) true srv ws
  end.

(** The server after a sequence of events, each handled to completion
    in the surroundings it finds. *)
Fixpoint run (tr : list (Env * Event)) (srv : Server) : Server :=
  match tr with
  | [] => srv
  | (env, ev) :: tr' => run tr' (step env ev srv).1
  end.

End Server.

(** ** The browser's [RTCPeerConnection] *)

Module Rtc.

Inductive SdpType := Offer | Answer.

(** An [RTCSessionDescriptionInit]. *)
Record Description := { sdp_type : SdpType; sdp : string }.

(** An [RTCIceCandidateInit], by its candidate line. *)
Abbreviation Candidate := string.

(** A [MediaStreamTrack]: its identity and whether its [readyState]
    is ['live']. *)
Record Track := { track_id : nat; live : bool }.

(** The [data] of a signaling message is untyped at run time. *)
Inductive Data :=
| DDescription (d : Description)
| DCandidate (c : Candidate)
| DOther.

Inductive SignalingState := stable | have_local_offer | have_remote_offer.

(** The attributes of a peer connection that the sources and the
    properties below observe; [candidates] are the remote candidates
    applied so far, oldest first. *)
Record PeerConnection := {
  pc_id : nat;
  closed : bool;
  signalingState : SignalingState;
  tracks : list Track;
  localDescription : option Description;
  remoteDescription : option Description;
  candidates : list Candidate
}.

Inductive DOMException := InvalidStateError | InvalidAccessError | TypeError | OperationError.

Abbreviation Result A := (A + DOMException)%type.

#[global] Instance SdpType_eq_dec : EqDecision SdpType.
Proof. solve_decision. Defined.
#[global] Instance Description_eq_dec : EqDecision Description.
Proof. solve_decision. Defined.
#[global] Instance Track_eq_dec : EqDecision Track.
Proof. solve_decision. Defined.
#[global] Instance Data_eq_dec : EqDecision Data.
Proof. solve_decision. Defined.

(** The asynchronous operations of a peer connection: each settles
    with the connection as it then is, or rejects. The sources are
    written against this interface and run on whatever implements it. *)
Class Browser := {
  addTrack : PeerConnection → Track → Result PeerConnection;
  createOffer : PeerConnection → Result Description;
  createAnswer : PeerConnection → Result Description;
  setLocalDescription : PeerConnection → Description → Result PeerConnection;
  setRemoteDescription : PeerConnection → Data → Result PeerConnection;
  (** [pc.addIceCandidate(new RTCIceCandidate(c))] *)
  addIceCandidate : PeerConnection → Data → Result PeerConnection
}.

(** [new RTCPeerConnection(config)] *)
Definition fresh (id : nat) : PeerConnection :=
  {| pc_id := id; closed := false; signalingState := stable; tracks := [];
     localDescription := None; remoteDescription := None; candidates := [] |}.

Definition close (pc : PeerConnection) : PeerConnection :=
  {| pc_id := pc_id pc; closed := true; signalingState := signalingState pc;
     tracks := tracks pc; localDescription := localDescription pc;
     remoteDescription := remoteDescription pc; candidates := candidates pc |}.

(** A browser that follows the state checks of the W3C WebRTC
    recommendation: every operation on a closed connection fails;
    descriptions are accepted according to the signaling state (a
    remote offer over a pending local offer rolls the latter back); a
    remote candidate needs a remote description. *)
Module W3C.

Definition with_tracks (pc : PeerConnection) (ts : list Track) : PeerConnection :=
  {| pc_id := pc_id pc; closed := closed pc; signalingState := signalingState pc;
     tracks := ts; localDescription := localDescription pc;
     remoteDescription := remoteDescription pc; candidates := candidates pc |}.

Definition with_candidates (pc : PeerConnection) (cs : list Candidate) : PeerConnection :=
  {| pc_id := pc_id pc; closed := closed pc; signalingState := signalingState pc;
     tracks := tracks pc; localDescription := localDescription pc;
     remoteDescription := remoteDescription pc; candidates := cs |}.

Definition with_descriptions (pc : PeerConnection) (s : SignalingState)
    (l r : option Description) : PeerConnection :=
  {| pc_id := pc_id pc; closed := closed pc; signalingState := s;
     tracks := tracks pc; localDescription := l;
     remoteDescription := r; candidates := candidates pc |}.

Definition addTrack (pc : PeerConnection) (t : Track) : Result PeerConnection :=
  if closed pc then inr InvalidStateError
  else if bool_decide (t ∈ tracks pc) then inr InvalidAccessError
  else inl (with_tracks pc (tracks pc ++ [t])).

Definition createOffer (pc : PeerConnection) : Result Description :=
  if closed pc then inr InvalidStateError
  else inl {| sdp_type := Offer; sdp := "v=0 offer " ++ Js.of_nat (pc_id pc) |}.

Definition createAnswer (pc : PeerConnection) : Result Description :=
  if closed pc then inr InvalidStateError
  else match signalingState pc with
       | have_remote_offer =>
         inl {| sdp_type := Answer; sdp := "v=0 answer " ++ Js.of_nat (pc_id pc) |}
       | _ => inr InvalidStateError
       end.

Definition setLocalDescription (pc : PeerConnection) (d : Description)
    : Result PeerConnection :=
  if closed pc then inr InvalidStateError
  else match sdp_type d, signalingState pc with
       | Offer, (stable | have_local_offer) =>
         inl (with_descriptions pc have_local_offer (Some d) (remoteDescription pc))
       | Answer, have_remote_offer =>
         inl (with_descriptions pc stable (Some d) (remoteDescription pc))
       | _, _ => inr InvalidStateError
       end.

Definition setRemoteDescription (pc : PeerConnection) (x : Data)
    : Result PeerConnection :=
  match x with
  | DDescription d =>
    if closed pc then inr InvalidStateError
    else match sdp_type d, signalingState pc with
         | Offer, (stable | have_remote_offer) =>
           inl (with_descriptions pc have_remote_offer (localDescription pc) (Some d))
         | Offer, have_local_offer =>
           inl (with_descriptions pc have_remote_offer None (Some d))
         | Answer, have_local_offer =>
           inl (with_descriptions pc stable (localDescription pc) (Some d))
         | Answer, _ => inr InvalidStateError
         end
  | _ => inr TypeError
  end.

Definition addIceCandidate (pc : PeerConnection) (x : Data) : Result PeerConnection :=
  match x with
  | DCandidate c =>
    if closed pc then inr InvalidStateError
    else match remoteDescription pc with
         | Some _ => inl (with_candidates pc (candidates pc ++ [c]))
         | None => inr InvalidStateError
         end
  | _ => inr TypeError
  end.

Definition browser : Browser :=
  {| Rtc.addTrack := addTrack; Rtc.createOffer := createOffer;
     Rtc.createAnswer := createAnswer;
     Rtc.setLocalDescription := setLocalDescription;
     Rtc.setRemoteDescription := setRemoteDescription;
     Rtc.addIceCandidate := addIceCandidate |}.

End W3C.

End Rtc.

(** ** The peer-connection manager: [src/lib/webrtc-stream.ts] *)

Module Streamer.

Import Proc Rtc.

(** A message on the [BroadcastChannel]. *)
Record Signal := { type : string; data : Data }.

(** A call on the current peer connection and how it settled. *)
Inductive Call :=
| CAddTrack (t : Track)
| CCreateOffer
| CCreateAnswer
| CSetLocalDescription (d : Description)
| CSetRemoteDescription (x : Data)
| CAddIceCandidate (x : Data)
| CClose.

Inductive Effect :=
| PcCall (pc : nat) (c : Call) (ok : bool)
| PostMessage (m : Signal)
| ChannelClose
| ConsoleError (what : string).

(** The fields of a [WebRTCStreamer] and what it has done so far.
    [onViewerRequest] and [onStreamCallback] are closures over [this];
    only whether they are installed is state. [next_pc] numbers the
    peer connections created, so that each has its own identity. *)
Record State := {
  peerConnection : option PeerConnection;
  channel_open : bool;
  onStreamCallback : bool;
  onViewerRequest : bool;
  localStream : option (list Track);
  next_pc : nat;
  effects : list Effect
}.

(** [new WebRTCStreamer(streamId)] *)
Definition new : State :=
  {| peerConnection := None; channel_open := true; onStreamCallback := false;
     onViewerRequest := false; localStream := None; next_pc := 0; effects := [] |}.

Abbreviation M := (Proc.M State DOMException).

Definition add_effects (st : State) (es : list Effect) : State :=
  {| peerConnection := peerConnection st; channel_open := channel_open st;
     onStreamCallback := onStreamCallback st; onViewerRequest := onViewerRequest st;
     localStream := localStream st; next_pc := next_pc st;
     effects := effects st ++ es |}.

Definition with_peerConnection (st : State) (pc : option PeerConnection) : State :=
  {| peerConnection := pc; channel_open := channel_open st;
     onStreamCallback := onStreamCallback st; onViewerRequest := onViewerRequest st;
     localStream := localStream st; next_pc := next_pc st; effects := effects st |}.

Definition emit (e : Effect) : M () := modify (λ st, add_effects st [e]).

Definition set_peerConnection (pc : option PeerConnection) : M () :=
  modify (λ st, with_peerConnection st pc).

(** [this.signalingChannel.postMessage(m)]; a closed channel throws. *)
Definition postMessage (m : Signal) : M () :=
  o ← gets channel_open;
  if o : bool then emit (PostMessage m) else throw InvalidStateError.

Section WithBrowser.

Context `{Browser}.

(** [await pc.op(...)] on the object held in [this.peerConnection]:
    the object is updated in place when the operation succeeds, and the
    rejection is thrown at the [await] when it fails. *)
Definition call_update (pc : PeerConnection) (c : Call)
    (r : Result PeerConnection) : M PeerConnection :=
  match r with
  | inl pc' => emit (PcCall (pc_id pc) c true);; set_peerConnection (Some pc');; mret pc'
  | inr e => emit (PcCall (pc_id pc) c false);; throw e
  end.

Definition call_create (pc : PeerConnection) (c : Call)
    (r : Result Description) : M Description :=
  match r with
  | inl d => emit (PcCall (pc_id pc) c true);; mret d
  | inr e => emit (PcCall (pc_id pc) c false);; throw e
  end.

(** [private createPeerConnection()] *)
Definition createPeerConnection : M PeerConnection :=
  st ← get;
  let pc := fresh (next_pc st) in
  modify (λ st,
    {| peerConnection := Some pc; channel_open := channel_open st;
       onStreamCallback := onStreamCallback st; onViewerRequest := onViewerRequest st;
       localStream := localStream st; next_pc := S (next_pc st);
       effects := effects st |});;
  mret pc.

(** [pc.close()] on the connection currently held, if any. *)
Definition close_current : M () :=
  o ← gets peerConnection;
  match o with
  | Some pc => emit (PcCall (pc_id pc) CClose true);; set_peerConnection (Some (Rtc.close pc))
  | None => mret ()
  end.

Fixpoint addTracks (pc : PeerConnection) (ts : list Track) : M PeerConnection :=
  match ts with
  | [] => mret pc
  | t :: ts' => pc' ← call_update pc (CAddTrack t) (addTrack pc t); addTracks pc' ts'
  end.

(** The closure that [startBroadcast] stores in [this.onViewerRequest];
    [this.localStream] is set whenever the closure is installed. *)
Definition viewerRequest : M () :=
  ls ← gets localStream;
  let all := default [] ls in
  let activeTracks := filter (λ t, live t = true) all in
  if bool_decide (length activeTracks = 0)
  then emit (ConsoleError "No active tracks available!")
  else
    close_current;;
    pc ← createPeerConnection;
    pc ← addTracks pc all;
    offer ← call_create pc CCreateOffer (createOffer pc);
    call_update pc (CSetLocalDescription offer) (setLocalDescription pc offer);;
    postMessage {| type := "offer"; data := DDescription offer |}.

(** [async startBroadcast(stream)] *)
Definition startBroadcast (stream : list Track) : M () :=
  modify (λ st,
    {| peerConnection := peerConnection st; channel_open := channel_open st;
       onStreamCallback := onStreamCallback st; onViewerRequest := onViewerRequest st;
       localStream := Some stream; next_pc := next_pc st; effects := effects st |});;
  if bool_decide (length stream = 0)
  then emit (ConsoleError "No tracks in stream!")
  else modify (λ st,
    {| peerConnection := peerConnection st; channel_open := channel_open st;
       onStreamCallback := onStreamCallback st; onViewerRequest := true;
       localStream := localStream st; next_pc := next_pc st; effects := effects st |}).

(** [async startViewing(onStream)] *)
Definition startViewing : M () :=
  modify (λ st,
    {| peerConnection := peerConnection st; channel_open := channel_open st;
       onStreamCallback := true; onViewerRequest := onViewerRequest st;
       localStream := localStream st; next_pc := next_pc st; effects := effects st |});;
  createPeerConnection;;
  postMessage {| type := "request-stream"; data := DOther |}.

(** [private async handleOffer(offer)] *)
Definition handleOffer (offer : Data) : M () :=
  o ← gets peerConnection;
  match o with
  | None => emit (ConsoleError "No peer connection for offer")
  | Some pc =>
    try_catch
      (pc ← call_update pc (CSetRemoteDescription offer) (setRemoteDescription pc offer);
       answer ← call_create pc CCreateAnswer (createAnswer pc);
       call_update pc (CSetLocalDescription answer) (setLocalDescription pc answer);;
       postMessage {| type := "answer"; data := DDescription answer |})
      (λ _, emit (ConsoleError "Error handling offer:"))
  end.

(** [private async handleAnswer(answer)] *)
Definition handleAnswer (answer : Data) : M () :=
  o ← gets peerConnection;
  match o with
  | None => emit (ConsoleError "No peer connection for answer")
  | Some pc =>
    try_catch
      (call_update pc (CSetRemoteDescription answer) (setRemoteDescription pc answer);;
       mret ())
      (λ _, emit (ConsoleError "Error handling answer:"))
  end.

(** [private async handleIceCandidate(candidate)] *)
Definition handleIceCandidate (candidate : Data) : M () :=
  o ← gets peerConnection;
  match o with
  | None => emit (ConsoleError "No peer connection for ICE candidate")
  | Some pc =>
    try_catch
      (call_update pc (CAddIceCandidate candidate) (addIceCandidate pc candidate);;
       mret ())
      (λ _, emit (ConsoleError "Error adding ICE candidate:"))
  end.

(** [this.signalingChannel.onmessage], installed by the constructor. *)
Definition onmessage (m : Signal) : M () :=
  if String.eqb (type m) "request-stream"
  then
    h ← gets onViewerRequest;
    when h viewerRequest
  else
    o ← gets peerConnection;
    match o with
    | None => mret ()
    | Some _ =>
      if String.eqb (type m) "offer" then handleOffer (data m)
      else if String.eqb (type m) "answer" then handleAnswer (data m)
      else if String.eqb (type m) "ice-candidate" then handleIceCandidate (data m)
      else mret ()
    end.

(** [stopBroadcast()] *)
Definition stopBroadcast : M () :=
  o ← gets peerConnection;
  match o with
  | Some pc => emit (PcCall (pc_id pc) CClose true);; set_peerConnection None
  | None => mret ()
  end.

(** [close()] *)
Definition close : M () :=
  stopBroadcast;;
  emit ChannelClose;;
  modify (λ st,
    {| peerConnection := peerConnection st; channel_open := false;
       onStreamCallback := onStreamCallback st; onViewerRequest := onViewerRequest st;
       localStream := localStream st; next_pc := next_pc st; effects := effects st |}).

(** A message posted by another party reaches [onmessage] only while
    the channel is open. Each message is handled to completion before
    the next; the interleaving of handlers at their [await]s is not
    modelled. *)
Definition deliver (m : Signal) : M () :=
  o ← gets channel_open;
  when o (onmessage m).

(** Messages delivered in turn, whatever the outcome of each: a
    rejected handler does not stop the next event. *)
Fixpoint deliver_all (ms : list Signal) (st : State) : State :=
  match ms with
  | [] => st
  | m :: ms' => deliver_all ms' (deliver m st).2
  end.

End WithBrowser.

(** Messages as the other party posts them. *)
Definition ice (c : Candidate) : Signal := {| type := "ice-candidate"; data := DCandidate c |}.
Definition offer_signal (d : Description) : Signal := {| type := "offer"; data := DDescription d |}.
Definition request_stream : Signal := {| type := "request-stream"; data := DOther |}.

(** *** Two streamers on a browser that follows the recommendation *)

(** A viewer that has called [startViewing] and not yet received an
    offer. *)
Definition viewing : State := (startViewing new).2.

Definition remote_offer : Description := {| sdp_type := Offer; sdp := "v=0 remote" |}.

Definition camera : list Track :=
  [{| track_id := 0; live := true |}; {| track_id := 1; live := true |}].

(** A broadcaster that has answered one viewer request. *)
Definition broadcasting : State :=
  (@deliver W3C.browser request_stream (startBroadcast camera new).2).2.

(** The stored tracks end (the device is unplugged, or the page stops
    them): the track objects are shared with the stream, so the
    streamer sees them ended. *)
Definition tracks_end (st : State) : State :=
  {| peerConnection := peerConnection st; channel_open := channel_open st;
     onStreamCallback := onStreamCallback st; onViewerRequest := onViewerRequest st;
     localStream :=
       match localStream st with
       | Some ts => Some ((λ t, {| track_id := track_id t; live := false |}) <$> ts)
       | None => None
       end;
     next_pc := next_pc st; effects := effects st |}.

Definition broadcast_ended : State := tracks_end broadcasting.

End Streamer.

(** ** The session coordinator: the WebSocket [WebRTCStreamer]

    The reconnecting variant of [WebRTCStreamer] (the class whose
    header reads "WebRTC streaming with WebSocket signaling"), as far
    as its transport is concerned. *)

Module Coordinator.

Import Proc.

Inductive Role := Broadcaster | Viewer.

Inductive SocketState := CONNECTING | OPEN | CLOSED.

#[global] Instance SocketState_eq_dec : EqDecision SocketState.
Proof. solve_decision. Defined.

(** Who is waiting for the promise of [connectWebSocket]. *)
Inductive Caller := ByStartBroadcast | ByStartViewing | ByReconnect.

Inductive Effect :=
| NewWebSocket
| WsSend (type : string)
| WsClose
| SetTimeout (ms : N)
| ClearTimeout
| CreatePeerConnection
| ClosePeerConnection
| ConsoleWarn (what : string)
| ConsoleError (what : string).

(** [ws] is the socket held in [this.ws] with its [readyState] (one
    socket at a time: events of a socket that was replaced are not
    modelled); [reconnectTimeout] is the pending timer, if any, with its
    delay; [awaiting] is the pending promise of [connectWebSocket];
    [localStream] and [peerConnection] tell whether the fields are set. *)
Record State := {
  ws : option SocketState;
  role : option Role;
  localStream : bool;
  peerConnection : bool;
  reconnectAttempts : nat;
  reconnectTimeout : option N;
  awaiting : option Caller;
  effects : list Effect
}.

Definition maxReconnectAttempts : nat := 5.

(** [new WebRTCStreamer(streamId)] *)
Definition new : State :=
  {| ws := None; role := None; localStream := false; peerConnection := false;
     reconnectAttempts := 0; reconnectTimeout := None; awaiting := None;
     effects := [] |}.

Abbreviation M := (Proc.M State ()).

Definition emit (e : Effect) : M () := modify (λ st,
  {| ws := ws st; role := role st; localStream := localStream st;
     peerConnection := peerConnection st;
     reconnectAttempts := reconnectAttempts st;
     reconnectTimeout := reconnectTimeout st; awaiting := awaiting st;
     effects := effects st ++ [e] |}).

Definition set_ws (w : option SocketState) : M () := modify (λ st,
  {| ws := w; role := role st; localStream := localStream st;
     peerConnection := peerConnection st;
     reconnectAttempts := reconnectAttempts st;
     reconnectTimeout := reconnectTimeout st; awaiting := awaiting st;
     effects := effects st |}).

Definition set_role (r : option Role) : M () := modify (λ st,
  {| ws := ws st; role := r; localStream := localStream st;
     peerConnection := peerConnection st;
     reconnectAttempts := reconnectAttempts st;
     reconnectTimeout := reconnectTimeout st; awaiting := awaiting st;
     effects := effects st |}).

Definition set_localStream (b : bool) : M () := modify (λ st,
  {| ws := ws st; role := role st; localStream := b;
     peerConnection := peerConnection st;
     reconnectAttempts := reconnectAttempts st;
     reconnectTimeout := reconnectTimeout st; awaiting := awaiting st;
     effects := effects st |}).

Definition set_peerConnection (b : bool) : M () := modify (λ st,
  {| ws := ws st; role := role st; localStream := localStream st;
     peerConnection := b;
     reconnectAttempts := reconnectAttempts st;
     reconnectTimeout := reconnectTimeout st; awaiting := awaiting st;
     effects := effects st |}).

Definition set_reconnectAttempts (n : nat) : M () := modify (λ st,
  {| ws := ws st; role := role st; localStream := localStream st;
     peerConnection := peerConnection st;
     reconnectAttempts := n;
     reconnectTimeout := reconnectTimeout st; awaiting := awaiting st;
     effects := effects st |}).

Definition set_reconnectTimeout (t : option N) : M () := modify (λ st,
  {| ws := ws st; role := role st; localStream := localStream st;
     peerConnection := peerConnection st;
     reconnectAttempts := reconnectAttempts st;
     reconnectTimeout := t; awaiting := awaiting st;
     effects := effects st |}).

Definition set_awaiting (c : option Caller) : M () := modify (λ st,
  {| ws := ws st; role := role st; localStream := localStream st;
     peerConnection := peerConnection st;
     reconnectAttempts := reconnectAttempts st;
     reconnectTimeout := reconnectTimeout st; awaiting := c;
     effects := effects st |}).

(** [private handleDisconnect()], the [onclose] handler of the socket *)
Definition handleDisconnect : M () :=
  st ← get;
  when ((reconnectAttempts st <? maxReconnectAttempts)%nat
        && bool_decide (is_Some (role st)))
    (set_reconnectAttempts (S (reconnectAttempts st));;
     n ← gets reconnectAttempts;
     emit (SetTimeout (2000 * N.of_nat n));;
     set_reconnectTimeout (Some (2000 * N.of_nat n)%N)).

(** [private sendMessage(message)] *)
Definition sendMessage (type : string) : M () :=
  w ← gets ws;
  if bool_decide (w = Some OPEN) then emit (WsSend type)
  else emit (ConsoleWarn "WebSocket not open, cannot send message").

(** [private connectWebSocket()] up to the point where its promise is
    pending on the new socket. *)
Definition connectWebSocket (c : Caller) : M () :=
  emit NewWebSocket;;
  set_ws (Some CONNECTING);;
  set_awaiting (Some c).

(** The code after [await this.connectWebSocket()] in each caller. *)
Definition resume (c : Caller) : M () :=
  match c with
  | ByStartBroadcast => sendMessage "join-as-broadcaster"
  | ByStartViewing =>
    emit CreatePeerConnection;; set_peerConnection true;;
    sendMessage "join-as-viewer"
  | ByReconnect =>
    st ← get;
    match role st with
    | Some Broadcaster => when (localStream st) (sendMessage "join-as-broadcaster")
    | Some Viewer => sendMessage "join-as-viewer"
    | None => mret ()
    end
  end.

(** The [catch] after [await this.connectWebSocket()] in each caller. *)
Definition failed (c : Caller) : M () :=
  match c with
  | ByReconnect => emit (ConsoleError "Reconnect failed:")
  | _ => emit (ConsoleError "Failed to connect to signaling server:")
  end.

(** What the surroundings do to a coordinator. *)
Inductive Event :=
| OnOpen            (* [ws.onopen] *)
| OnError           (* [ws.onerror] *)
| OnClose           (* [ws.onclose] *)
| TimerFired        (* the callback given to [setTimeout] *)
| StartBroadcast (tracks : nat)
| StartViewing
| CallClose.

Definition settle (k : Caller → M ()) : M () :=
  a ← gets awaiting;
  match a with
  | Some c => set_awaiting None;; k c
  | None => mret ()
  end.

Definition stopBroadcast : M () :=
  p ← gets peerConnection;
  when p (emit ClosePeerConnection;; set_peerConnection false).

(** The socket held in [this.ws], if any, changes its [readyState]. *)
Definition socket_becomes (s : SocketState) : M () :=
  w ← gets ws;
  when (bool_decide (is_Some w)) (set_ws (Some s)).

Definition handle (ev : Event) : M () :=
  match ev with
  | OnOpen =>
    socket_becomes OPEN;; set_reconnectAttempts 0;; settle resume
  | OnError => settle failed
  | OnClose => socket_becomes CLOSED;; handleDisconnect
  | TimerFired =>
    t ← gets reconnectTimeout;
    match t with
    | Some _ => set_reconnectTimeout None;; connectWebSocket ByReconnect
    | None => mret ()
    end
  | StartBroadcast tracks =>
    set_localStream true;; set_role (Some Broadcaster);;
    if (tracks =? 0)%nat then emit (ConsoleError "No tracks in stream!")
    else connectWebSocket ByStartBroadcast
  | StartViewing =>
    set_role (Some Viewer);; connectWebSocket ByStartViewing
  | CallClose =>
    t ← gets reconnectTimeout;
    when (bool_decide (is_Some t)) (emit ClearTimeout;; set_reconnectTimeout None);;
    stopBroadcast;;
    w ← gets ws;
    when (bool_decide (is_Some w)) (emit WsClose;; set_ws None);;
    set_role None
  end.

Fixpoint run (evs : list Event) (st : State) : State :=
  match evs with
  | [] => st
  | ev :: evs' => run evs' (handle ev st).2
  end.

(** The delays of the timers set, in the order they were set. *)
Definition delays (es : list Effect) : list N :=
  omap (λ e, match e with SetTimeout ms => Some ms | _ => None end) es.







End Coordinator.

(** ** The viewer's retry loop: [connectToStream] in [StreamPlayer] *)

Module Player.

Import Proc.

Inductive Status := connected_ | buffering | disconnected.

Inductive Effect :=
| NewStreamer                (* [new WebRTCStreamer(...)] and [startViewing] *)
| CloseStreamer
| SetTimeout (ms : N)
| ClearTimeout
| SetConnectionStatus (s : Status).

(** The variables of the effect's closure. *)
Record State := {
  retryCount : nat;
  connected : bool;
  retryTimeout : option N;
  streamer : bool;
  effects : list Effect
}.


Abbreviation M := (Proc.M State ()).

Definition emit (e : Effect) : M () := modify (λ st,
  {| retryCount := retryCount st; connected := connected st;
     retryTimeout := retryTimeout st; streamer := streamer st;
     effects := effects st ++ [e] |}).


Definition set_connected (b : bool) : M () := modify (λ st,
  {| retryCount := retryCount st; connected := b;
     retryTimeout := retryTimeout st; streamer := streamer st;
     effects := effects st |}).

Definition set_retryTimeout (t : option N) : M () := modify (λ st,
  {| retryCount := retryCount st; connected := connected st;
     retryTimeout := t; streamer := streamer st;
     effects := effects st |}).




(** The callback given to [startViewing]; [played] tells whether
    either [play()] succeeded. *)
Definition onStream (played : bool) : M () :=
  set_connected true;;
  t ← gets retryTimeout;
  when (bool_decide (is_Some t)) (emit ClearTimeout;; set_retryTimeout None);;
  when played (emit (SetConnectionStatus connected_)).



Definition delays (es : list Effect) : list N :=
  omap (λ e, match e with SetTimeout ms => Some ms | _ => None end) es.



End Player.

(** ** [WebRTCStreamManager] in [src/lib/streaming/webrtc-manager.ts] *)

Module Manager.

Import Proc Rtc.

Inductive Exn :=
| NotInitialized              (* [new Error('Peer connection not initialized')] *)
| Dom (e : DOMException).

(** Only the [peerConnection] field matters to the two handlers. *)
Abbreviation M := (Proc.M (option PeerConnection) Exn).

Section WithBrowser.

Context `{Browser}.

Definition await (r : Result PeerConnection) : M () :=
  match r with
  | inl pc' => modify (λ _, Some pc')
  | inr e => throw (Dom e)
  end.

(** [async handleAnswer(answer)] *)
Definition handleAnswer (answer : Data) : M () :=
  o ← get;
  match o with
  | None => throw NotInitialized
  | Some pc => await (setRemoteDescription pc answer)
  end.

(** [async addIceCandidate(candidate)] *)
Definition addIceCandidate (candidate : Data) : M () :=
  o ← get;
  match o with
  | None => throw NotInitialized
  | Some pc => await (Rtc.addIceCandidate pc candidate)
  end.

End WithBrowser.

End Manager.

(** ** [AdaptiveBitrateController] in [src/lib/streaming/webrtc-manager.ts] *)

Module Abr.

Import Proc.


(** The controller's fields and the [active] flags of the sender's
    encodings, in the order of [parameters.encodings]. *)
Record State := {
  currentQuality : nat;
  lastAdjustment : Z;
  encodings : list bool
}.


(** [new AdaptiveBitrateController(sender)] at time [now]. *)
Definition new (now : Z) (encodings : list bool) : State :=
  {| currentQuality := 1; lastAdjustment := now; encodings := encodings |}.

Abbreviation M := (Proc.M State ()).


Section WithSender.

(** Whether [sender.setParameters] resolves. *)
Variable setParameters_ok : bool.





End WithSender.

(** [private getQualityLabel()] *)
Definition getQualityLabel (st : State) : string :=
  default "unknown" (["480p"; "720p"; "1080p"] !! currentQuality st).




End Abr.

(** * Properties

    ** The built-ins: an id printed by [getViewerId] is read back by
    [findViewerById] *)

Module JsFacts.

Import Js.

Lemma replace_prefix x : Js.replace "viewer-" "" ("viewer-" ++ x) = x.
Proof.
  cbv [String.append]. cbn.
  replace (String.prefix "" x) with true by (by destruct x).
  by cbv [String.append].
Qed.

Lemma digits_of_uint (u : Decimal.uint) (a : nat) :
  Js.digits 10 (Some (Z.of_nat a)) (NilEmpty.string_of_uint u)
  = Some (Z.of_nat (Nat.of_uint_acc u a)).
Proof.
  revert a. induction u; intros a; cbn [NilEmpty.string_of_uint Js.digits Nat.of_uint_acc];
    [done|..];
    (change (Js.digit_val 10 _) with (Some 0%Z) || change (Js.digit_val 10 _) with (Some 1%Z)
     || change (Js.digit_val 10 _) with (Some 2%Z) || change (Js.digit_val 10 _) with (Some 3%Z)
     || change (Js.digit_val 10 _) with (Some 4%Z) || change (Js.digit_val 10 _) with (Some 5%Z)
     || change (Js.digit_val 10 _) with (Some 6%Z) || change (Js.digit_val 10 _) with (Some 7%Z)
     || change (Js.digit_val 10 _) with (Some 8%Z) || change (Js.digit_val 10 _) with (Some 9%Z));
    cbn [default]; rewrite <-IHu; do 2 f_equal; rewrite Nat.tail_mul_spec; unfold id; lia.
Qed.

Lemma string_of_uint_head (u : Decimal.uint) :
  u ≠ Decimal.Nil →
  ∃ c d r, digit_char c d ∧ NilEmpty.string_of_uint u = String c r
           ∧ (r = EmptyString ∨ ∃ c' d' r', digit_char c' d' ∧ r = String c' r').
Proof.
  assert (Hr : ∀ u', NilEmpty.string_of_uint u' = EmptyString
            ∨ ∃ c' d' r', digit_char c' d' ∧ NilEmpty.string_of_uint u' = String c' r').
  { intros u'. destruct u'; cbn; [by left|right..]; eexists _, _, _; split; try done; constructor. }
  intros Hu. destruct u; [done|..]; cbn [NilEmpty.string_of_uint];
    eexists _, _, _; (split; [constructor|split; [done|apply Hr]]).
Qed.

Lemma parseInt_digits c d r :
  digit_char c d →
  (r = EmptyString ∨ ∃ c' d' r', digit_char c' d' ∧ r = String c' r') →
  Js.parseInt (String c r)
  = match Js.digits 10 None (String c r) with
    | Some n => Some (1 * n)%Z
    | None => None
    end.
Proof.
  intros Hc Hr. unfold Js.parseInt, Js.trim_start.
  assert (Ht : Js.trim_start_fuel (String.length (String c r)) (String c r) = String c r).
  { cbn [String.length Js.trim_start_fuel]. by destruct Hc. }
  rewrite Ht.
  destruct Hc; try reflexivity.
  destruct Hr as [->|(c' & d' & r' & Hc' & ->)]; [reflexivity|].
  by destruct Hc'.
Qed.

Lemma parseInt_of_nat (n : nat) : Js.parseInt (Js.of_nat n) = Some (Z.of_nat n).
Proof.
  unfold Js.of_nat.
  assert (Hu : Nat.to_uint n ≠ Decimal.Nil).
  { rewrite <-(DecimalNat.Unsigned.of_to n) at 1.
    rewrite DecimalNat.Unsigned.to_of. apply DecimalFacts.unorm_nonnil. }
  destruct (string_of_uint_head _ Hu) as (c & d & r & Hc & E & Hr).
  rewrite E, (parseInt_digits c d r Hc Hr), <-E.
  assert (Hd : Js.digits 10 None (NilEmpty.string_of_uint (Nat.to_uint n))
               = Some (Z.of_nat n)).
  { rewrite <-(DecimalNat.Unsigned.of_to n) at 2. unfold Nat.of_uint.
    rewrite <-digits_of_uint.
    destruct (Nat.to_uint n); [done|..]; reflexivity. }
  rewrite Hd. f_equal. lia.
Qed.
End JsFacts.

(** ** The signaling server *)

Module ServerFacts.
Import Proc Server.

Lemma add_effects_nil st : add_effects st [] = st.
Proof. destruct st; unfold add_effects; simpl. by rewrite app_nil_r. Qed.

Lemma add_effects_app st es1 es2 :
  add_effects (add_effects st es1) es2 = add_effects st (es1 ++ es2).
Proof. unfold add_effects; simpl. by rewrite app_assoc. Qed.

Lemma forEach_send_when (p : Conn → bool) (f : Conn → OutMsg) xs st :
  forEach xs (λ v, when (p v) (send v (f v))) st
  = (Normal (), add_effects st ((λ v, Send v (f v)) <$> List.filter p xs)).
Proof.
  revert st. induction xs as [|x xs IH]; intros st; simpl.
  - by rewrite add_effects_nil.
  - unfold mbind, M_bind. destruct (p x); simpl.
    + rewrite IH. by rewrite add_effects_app.
    + by rewrite IH.
Qed.

Lemma forEach_send (f : Conn → OutMsg) xs st :
  forEach xs (λ v, send v (f v)) st
  = (Normal (), add_effects st ((λ v, Send v (f v)) <$> xs)).
Proof.
  revert st. induction xs as [|x xs IH]; intros st; simpl.
  - by rewrite add_effects_nil.
  - unfold mbind, M_bind; simpl. rewrite IH. by rewrite add_effects_app.
Qed.

Lemma alter_create (m : gmap StreamId Session) k f :
  alter f k (if negb (bool_decide (is_Some (m !! k))) then <[k := empty_session]> m else m)
  = <[k := f (default empty_session (m !! k))]> m.
Proof.
  apply map_eq; intros j. case_bool_decide as E; simpl.
  - destruct E as [s E]. rewrite E. simpl.
    destruct (decide (k = j)) as [->|Hne].
    + by rewrite lookup_alter_eq, lookup_insert_eq, E.
    + by rewrite lookup_alter_ne, lookup_insert_ne.
  - apply eq_None_not_Some in E. rewrite E. simpl.
    destruct (decide (k = j)) as [->|Hne].
    + by rewrite lookup_alter_eq, !lookup_insert_eq.
    + by rewrite lookup_alter_ne, !lookup_insert_ne.
Qed.

Ltac server_step :=
  cbv [mbind M_bind mret M_ret gets get modify throw
       get_streams get_currentStreamId get_role set_streams set_currentStreamId
       set_role];
  cbn [when andb negb streams currentStreamId role effects fst snd].

Lemma join_as_broadcaster_body ws d st :
  join_as_broadcaster ws d st
  = (Normal (),
     {| streams := <[streamId d := {| broadcaster := Some ws;
                             viewers := session_viewers (streams st) (streamId d) |}]> (streams st);
        currentStreamId := streamId d; role := Some Broadcaster;
        effects := effects st
          ++ ((λ v, Send v (notice "broadcaster-available")) <$> session_viewers (streams st) (streamId d)) |}).
Proof.
  unfold join_as_broadcaster, create_if_absent, update_session. server_step.
  unfold when at 1. server_step.
  set (m := streams st). set (k := streamId d).
  assert (Hm : alter (with_broadcaster (Some ws)) k
             (if negb (bool_decide (is_Some (m !! k))) then <[k := empty_session]> m else m)
           = <[k := {| broadcaster := Some ws; viewers := session_viewers m k |}]> m).
  { rewrite alter_create. unfold session_viewers. by destruct (m !! k). }
  destruct (negb (bool_decide (is_Some (m !! k)))) eqn:E; server_step;
    rewrite Hm; rewrite forEach_send; unfold add_effects; cbn [streams currentStreamId role effects];
    unfold session_viewers at 1 2; rewrite lookup_insert_eq; reflexivity.
Qed.

Lemma join_as_viewer_body ws d st :
  join_as_viewer ws d st
  = (Normal (),
     {| streams := <[streamId d :=
                      {| broadcaster := session_broadcaster (streams st) (streamId d);
                         viewers := set_add ws (session_viewers (streams st) (streamId d)) |}]>
                     (streams st);
        currentStreamId := streamId d; role := Some Viewer;
        effects := effects st
          ++ (if bool_decide (is_Some (session_broadcaster (streams st) (streamId d)))
              then [Send ws (notice "broadcaster-available")] else []) |}).
Proof.
  unfold join_as_viewer, create_if_absent, update_session. server_step.
  unfold when at 1. server_step.
  set (m := streams st). set (k := streamId d).
  assert (Hm : alter (with_viewers (set_add ws)) k
             (if negb (bool_decide (is_Some (m !! k))) then <[k := empty_session]> m else m)
           = <[k := {| broadcaster := session_broadcaster m k;
                       viewers := set_add ws (session_viewers m k) |}]> m).
  { rewrite alter_create. unfold session_viewers, session_broadcaster.
    by destruct (m !! k). }
  assert (Hb : session_broadcaster
                 (<[k := {| broadcaster := session_broadcaster m k;
                            viewers := set_add ws (session_viewers m k) |}]> m) k
               = session_broadcaster m k).
  { unfold session_broadcaster at 1. by rewrite lookup_insert_eq. }
  destruct (negb (bool_decide (is_Some (m !! k)))) eqn:E; server_step;
    rewrite Hm, Hb; destruct (bool_decide (is_Some (session_broadcaster m k)));
    server_step;
    unfold send, emit, modify, add_effects; cbn [streams currentStreamId role effects];
    rewrite ?app_nil_r; reflexivity.
Qed.

Lemma guard_true st :
  guard st = true ↔
  sid_truthy (currentStreamId st) = true ∧ is_Some (streams st !! currentStreamId st).
Proof.
  unfold guard. rewrite andb_true_iff, bool_decide_eq_true. tauto.
Qed.

Lemma on_close_skip env ws st : guard st = false → on_close env ws st = (Normal (), st).
Proof. unfold guard, on_close. server_step. by intros ->. Qed.

Lemma alter_present (m : gmap StreamId Session) k f s :
  m !! k = Some s → alter f k m = <[k := f s]> m.
Proof.
  intros E. apply map_eq; intros j. destruct (decide (k = j)) as [->|Hne].
  - by rewrite lookup_alter_eq, lookup_insert_eq, E.
  - by rewrite lookup_alter_ne, lookup_insert_ne.
Qed.

Lemma on_close_body env ws st s :
  sid_truthy (currentStreamId st) = true →
  streams st !! currentStreamId st = Some s →
  on_close env ws st
  = (Normal (),
     {| streams := if is_empty (after_close ws (role st) s)
                   then delete (currentStreamId st) (streams st)
                   else <[currentStreamId st := after_close ws (role st) s]> (streams st);
        currentStreamId := currentStreamId st; role := role st;
        effects := effects st
          ++ match role st with
             | Some Broadcaster =>
               (λ v, Send v (notice "broadcaster-left")) <$> List.filter (is_open env) (viewers s)
             | _ => []
             end |}).
Proof.
  intros Hk Hs. unfold on_close. server_step. rewrite Hk.
  rewrite bool_decide_true by eauto. cbn [andb].
  destruct st as [m k r es]; cbn [streams currentStreamId role effects] in *.
  assert (Hdel : ∀ s', delete k (<[k := s']> m) = delete k m).
  { intros s'. apply map_eq; intros j. destruct (decide (k = j)) as [->|Hne].
    - by rewrite !lookup_delete_eq.
    - by rewrite !lookup_delete_ne, lookup_insert_ne. }
  destruct r as [[|]|]; cbn [after_close].
  - unfold update_session. server_step.
    rewrite (alter_present _ _ _ _ Hs).
    unfold session_viewers at 1. rewrite Hs. cbn [from_option].
    rewrite forEach_send_when. unfold add_effects. cbn [streams currentStreamId role effects].
    unfold session_broadcaster, session_viewers, is_empty. rewrite lookup_insert_eq.
    cbn [mbind option_bind from_option with_broadcaster broadcaster viewers].
    destruct (negb (bool_decide (is_Some None)) && bool_decide (viewers s = [])) eqn:E;
      cbn [streams currentStreamId role effects]; by rewrite ?Hdel.
  - unfold update_session. server_step.
    rewrite (alter_present _ _ _ _ Hs).
    unfold session_broadcaster, session_viewers, is_empty. rewrite lookup_insert_eq.
    cbn [mbind option_bind from_option with_viewers broadcaster viewers].
    destruct (negb (bool_decide (is_Some (broadcaster s)))
              && bool_decide (set_delete ws (viewers s) = [])) eqn:E;
      cbn [streams currentStreamId role effects]; by rewrite ?Hdel, app_nil_r.
  - server_step. unfold session_broadcaster, session_viewers, is_empty. rewrite Hs.
    cbn [mbind option_bind from_option].
    destruct (negb (bool_decide (is_Some (broadcaster s)))
              && bool_decide (viewers s = [])) eqn:E;
      cbn [streams currentStreamId role effects]; rewrite app_nil_r; [done|].
    by rewrite insert_id.
Qed.

Lemma relay_skip env ws t d st : guard st = false → relay env ws t d st = (Normal (), st).
Proof. unfold guard, relay. server_step. by intros ->. Qed.

Lemma relay_from_broadcaster env ws t d st s :
  sid_truthy (currentStreamId st) = true →
  streams st !! currentStreamId st = Some s →
  role st = Some Broadcaster →
  well_typed_target (targetViewerId d) →
  relay env ws t d st
  = (Normal (),
     add_effects st
       match resolves (viewers s) (targetViewerId d) with
       | Some v => [Send v (relayed t d)]
       | None => (λ v, Send v (relayed t d)) <$> List.filter (is_open env) (viewers s)
       end).
Proof.
  intros Hk Hs Hr Htv. unfold relay. server_step. rewrite Hk, Hr, Hs.
  rewrite bool_decide_true by eauto. server_step.
  unfold session_viewers. rewrite Hs. cbn [from_option].
  unfold resolves.
  destruct (targetViewerId d) as [|x|b] eqn:Etv; [| |done].
  - cbn [Js.truthy]. server_step. by rewrite forEach_send_when.
  - destruct (Js.truthy (Js.Str x)) eqn:Ex.
    + unfold findViewerById. server_step.
      destruct (Js.array_get _ _) as [v|]; [done|].
      by rewrite forEach_send_when.
    + server_step. by rewrite forEach_send_when.
Qed.

Lemma relay_bad_target env ws t d st s b :
  sid_truthy (currentStreamId st) = true →
  streams st !! currentStreamId st = Some s →
  role st = Some Broadcaster →
  targetViewerId d = Js.Other b →
  relay env ws t d st
  = if b then (Throw TypeError, st)
    else (Normal (), add_effects st
            ((λ v, Send v (relayed t d)) <$> List.filter (is_open env) (viewers s))).
Proof.
  intros Hk Hs Hr Htv. unfold relay. server_step. rewrite Hk, Hr, Hs, Htv.
  rewrite bool_decide_true by eauto. server_step.
  unfold session_viewers. rewrite Hs. cbn [from_option Js.truthy].
  destruct b; server_step; [done|]. by rewrite forEach_send_when.
Qed.

Lemma relay_from_viewer env ws t d st s :
  sid_truthy (currentStreamId st) = true →
  streams st !! currentStreamId st = Some s →
  role st = Some Viewer →
  relay env ws t d st
  = (Normal (),
     add_effects st
       match broadcaster s with
       | Some b =>
         if is_open env b
         then [Send b (tagged t d (getViewerId env (streams st) ws (currentStreamId st)))]
         else []
       | None => []
       end).
Proof.
  intros Hk Hs Hr. unfold relay. server_step. rewrite Hk, Hr, Hs.
  rewrite bool_decide_true by eauto. server_step.
  unfold session_broadcaster. rewrite Hs. cbn [mbind option_bind].
  destruct (broadcaster s) as [b|]; server_step; [|by rewrite add_effects_nil].
  destruct (is_open env b); server_step; [done|by rewrite add_effects_nil].
Qed.

Lemma relay_no_role env ws t d st :
  role st = None → relay env ws t d st = (Normal (), st).
Proof.
  intros Hr. unfold relay. server_step. rewrite Hr.
  by destruct (sid_truthy _ && _).
Qed.

Lemma request_stream_body env ws st :
  request_stream env ws st
  = (Normal (),
     add_effects st
       (if guard st then
          match session_broadcaster (streams st) (currentStreamId st) with
          | Some b =>
            if is_open env b
            then [Send b {| out_type := "viewer-request"; out_data := None;
                            out_viewerId := Some (getViewerId env (streams st) ws
                                                    (currentStreamId st)) |}]
            else []
          | None => []
          end
        else [])).
Proof.
  unfold request_stream, guard. server_step.
  destruct (sid_truthy _ && _); server_step; [|by rewrite add_effects_nil].
  destruct (session_broadcaster _ _) as [b|]; server_step; [|by rewrite add_effects_nil].
  destruct (is_open env b); server_step; [done|by rewrite add_effects_nil].
Qed.

Lemma harmless_sends (f : Conn → OutMsg) xs : Forall harmless ((λ v, Send v (f v)) <$> xs).
Proof. apply Forall_fmap, Forall_forall. by intros. Qed.

Lemma relay_cases env ws t d st :
  ∃ c es, relay env ws t d st = (c, add_effects st es) ∧ Forall harmless es
          ∧ (c = Normal () ∨ (c = Throw TypeError ∧ es = [])).
Proof.
  destruct (guard st) eqn:G.
  - apply guard_true in G as [Hk [s Hs]].
    destruct (role st) as [[|]|] eqn:Hr.
    + destruct (targetViewerId d) as [|x|b] eqn:Etv.
      * eexists _, _. split; [apply (relay_from_broadcaster _ _ _ _ _ s); by rewrite ?Etv|].
        split; [|by left]. destruct (resolves _ _); [by repeat constructor|apply harmless_sends].
      * eexists _, _. split; [apply (relay_from_broadcaster _ _ _ _ _ s); by rewrite ?Etv|].
        split; [|by left]. destruct (resolves _ _); [by repeat constructor|apply harmless_sends].
      * rewrite (relay_bad_target _ _ _ _ _ s b) by done. destruct b.
        -- exists (Throw TypeError), []. rewrite add_effects_nil. split_and!; auto.
        -- eexists _, _. split_and!; [done|apply harmless_sends|by left].
    + eexists _, _. split; [by apply (relay_from_viewer _ _ _ _ _ s)|].
      split; [|by left]. destruct (broadcaster s); [|done]. destruct (is_open _ _); by repeat constructor.
    + exists (Normal ()), []. rewrite add_effects_nil. split_and!; auto using relay_no_role.
  - exists (Normal ()), []. rewrite add_effects_nil. split_and!; auto using relay_skip.
Qed.

Lemma dispatch_cases env ws d st :
  ∃ c st', dispatch env ws d st = (c, st')
    ∧ (∃ es, effects st' = effects st ++ es ∧ Forall harmless es)
    ∧ (c = Normal () ∨ (c = Throw TypeError ∧ st' = st)).
Proof.
  unfold dispatch. destruct (type d) as [|t|b].
  - exists (Normal ()), st. split_and!; auto. exists []. by rewrite app_nil_r.
  - destruct (String.eqb t "join-as-broadcaster").
    { rewrite join_as_broadcaster_body. eexists _, _. split_and!; [done| |by left].
      eexists. split; [done|]. apply harmless_sends. }
    destruct (String.eqb t "join-as-viewer").
    { rewrite join_as_viewer_body. eexists _, _. split_and!; [done| |by left].
      eexists. split; [done|]. destruct (bool_decide _); by repeat constructor. }
    destruct (String.eqb t "request-stream").
    { rewrite request_stream_body. eexists _, _. split_and!; [done| |by left].
      eexists. split; [done|]. destruct (guard st); [|done].
      destruct (session_broadcaster _ _); [|done]. destruct (is_open _ _); by repeat constructor. }
    destruct (is_relayed t).
    { destruct (relay_cases env ws t d st) as (c & es & -> & Hes & Hc).
      eexists _, _. split_and!; [done|by exists es|].
      destruct Hc as [->|[-> ->]]; [by left|right]. by rewrite add_effects_nil. }
    exists (Normal ()), st. split_and!; auto. exists []. by rewrite app_nil_r.
  - exists (Normal ()), st. split_and!; auto. exists []. by rewrite app_nil_r.
Qed.

Lemma body_cases env ws f st :
  ∃ c st', (JSON_parse f ≫= dispatch env ws) st = (c, st')
    ∧ (∃ es, effects st' = effects st ++ es ∧ Forall harmless es)
    ∧ (c = Normal () ∨ ((c = Throw TypeError ∨ c = Throw SyntaxError) ∧ st' = st)).
Proof.
  destruct f as [| | |d]; cbn.
  - exists (Throw SyntaxError), st. split_and!; auto. exists []. by rewrite app_nil_r.
  - exists (Throw TypeError), st. split_and!; auto. exists []. by rewrite app_nil_r.
  - exists (Normal ()), st. split_and!; auto. exists []. by rewrite app_nil_r.
  - destruct (dispatch_cases env ws d st) as (c & st' & E & Hes & Hc).
    exists c, st'. split_and!; [done|done|]. destruct Hc as [->|[-> ->]]; auto.
Qed.

Lemma on_message_run env ws f st :
  on_message env ws f st
  = match (JSON_parse f ≫= dispatch env ws) st with
    | (Normal a, st') => (Normal a, st')
    | (Throw _, st') => (Normal (), add_effects st' [ConsoleError "Error processing message:"])
    end.
Proof. reflexivity. Qed.


Lemma run_handler_alive h a srv w c cl :
  closures srv !! c = Some cl → c_alive cl = true →
  ∃ cl', closures (run_handler h a srv w).1 !! c = Some cl'
         ∧ (c_alive cl' = false → a = false ∧ w = c).
Proof.
  intros Hc Ha. unfold run_handler.
  destruct (closures srv !! w) as [c0|] eqn:Ew; [|exists cl; split; [done|congruence]].
  destruct (c_alive c0); [|exists cl; split; [done|congruence]].
  cbn [fst leave closures]. destruct (decide (w = c)) as [->|Hne].
  - rewrite lookup_insert_eq. eexists. split; [done|]. cbn. by intros ->.
  - rewrite lookup_insert_ne by done. exists cl. split; [done|congruence].
Qed.

(** Claim C7. The message handler never throws and never closes a
    socket: it returns normally on every frame, and every
    [CloseSocket] found among the effects afterwards was there before.
    When the body throws (the frame is not JSON, is [null], or carries
    a [targetViewerId] without [.replace]), the state is as before but
    for one [console.error]: the message is logged and discarded,
    nothing is sent, the registry and the closure are unchanged. For
    the server as a whole, a connection that was alive before an event
    is still alive after it unless the event is its own transport-level
    [close]. *)
Theorem payload_errors_are_logged_and_dropped env ws f st :
  (∃ st', on_message env ws f st = (Normal (), st')
          ∧ ∀ c, CloseSocket c ∈ effects st' → CloseSocket c ∈ effects st)
  ∧ (∀ e st1, (JSON_parse f ≫= dispatch env ws) st = (Throw e, st1) →
       on_message env ws f st
       = (Normal (), add_effects st [ConsoleError "Error processing message:"]))
  ∧ (∀ srv ev c cl, closures srv !! c = Some cl → c_alive cl = true →
       (∃ cl', closures (step env ev srv).1 !! c = Some cl'
               ∧ (c_alive cl' = false → ev = Close c))).
Proof.
  split_and!.
  - rewrite on_message_run.
    destruct (body_cases env ws f st) as (c & st' & -> & (es & Hes & Hh) & Hc).
    assert (Hin : ∀ x es', Forall harmless es' →
              CloseSocket x ∈ effects st ++ es' → CloseSocket x ∈ effects st).
    { intros x es' Hes' [?|Hx]%elem_of_app; [done|].
      rewrite Forall_forall in Hes'. by destruct (Hes' _ Hx). }
    destruct Hc as [->|[[-> | ->] ->]].
    + exists st'. split; [done|]. intros x. rewrite Hes. by apply Hin.
    + eexists. split; [done|]. intros x. cbn. apply Hin. by repeat constructor.
    + eexists. split; [done|]. intros x. cbn. apply Hin. by repeat constructor.
  - intros e st1 E. rewrite on_message_run, E.
    destruct (body_cases env ws f st) as (c & st' & E' & _ & Hc).
    rewrite E in E'. injection E' as <- <-.
    destruct Hc as [?|[_ ->]]; [done|done].
  - intros srv ev c cl Hc Ha.
    destruct ev as [w|w fr|w|w]; cbn [step].
    + destruct (closures srv !! w) eqn:Ew; cbn [fst closures].
      * exists cl. split; [done|congruence].
      * rewrite lookup_insert_ne by congruence. exists cl. split; [done|congruence].
    + destruct (run_handler_alive (on_message env w fr) true srv w c cl Hc Ha)
        as (cl' & ? & Hcl'). exists cl'. split; [done|]. intros F. by destruct (Hcl' F).
    + destruct (run_handler_alive (on_close env w) false srv w c cl Hc Ha)
        as (cl' & ? & Hcl'). exists cl'. split; [done|]. intros F.
      destruct (Hcl' F) as [_ ->]. done.
    + destruct (run_handler_alive (on_error w) true srv w c cl Hc Ha)
        as (cl' & ? & Hcl'). exists cl'. split; [done|]. intros F. by destruct (Hcl' F).
Qed.

Lemma set_add_NoDup ws vs : NoDup vs → NoDup (set_add ws vs).
Proof.
  intros Hvs. unfold set_add. case_decide; [done|].
  apply NoDup_app. split_and!; [done| |apply NoDup_singleton].
  intros x Hx ->%list_elem_of_singleton. done.
Qed.

Lemma set_add_elem ws vs : ws ∈ set_add ws vs.
Proof. unfold set_add. case_decide; [done|]. apply elem_of_app. right. by left. Qed.

Lemma set_delete_NoDup ws vs : NoDup vs → NoDup (set_delete ws vs).
Proof. apply NoDup_filter. Qed.

Lemma session_viewers_NoDup m k : registry_ok m → NoDup (session_viewers m k).
Proof.
  intros Hm. unfold session_viewers. destruct (m !! k) as [s|] eqn:E; cbn.
  - by apply (Hm k s).
  - constructor.
Qed.

Lemma registry_ok_insert m k s :
  registry_ok m → populated s → NoDup (viewers s) → registry_ok (<[k := s]> m).
Proof.
  intros Hm Hp Hn j s'. destruct (decide (k = j)) as [->|Hne].
  - rewrite lookup_insert_eq. by intros [= <-].
  - rewrite lookup_insert_ne by done. apply Hm.
Qed.

Lemma registry_ok_delete m k : registry_ok m → registry_ok (delete k m).
Proof.
  intros Hm j s'. destruct (decide (k = j)) as [->|Hne].
  - by rewrite lookup_delete_eq.
  - rewrite lookup_delete_ne by done. apply Hm.
Qed.

Lemma is_empty_false s : is_empty s = false → populated s.
Proof.
  unfold is_empty, populated. rewrite andb_false_iff, negb_false_iff.
  rewrite bool_decide_eq_true, bool_decide_eq_false. tauto.
Qed.

Lemma is_empty_true s : is_empty s = true ↔ broadcaster s = None ∧ viewers s = [].
Proof.
  unfold is_empty. rewrite andb_true_iff, negb_true_iff.
  rewrite bool_decide_eq_true, bool_decide_eq_false, <-eq_None_not_Some. tauto.
Qed.

Lemma after_close_NoDup ws r s : NoDup (viewers s) → NoDup (viewers (after_close ws r s)).
Proof. destruct r as [[|]|]; cbn; auto using set_delete_NoDup. Qed.

Lemma dispatch_preserves env ws d st :
  registry_ok (streams st) → registry_ok (streams (dispatch env ws d st).2).
Proof.
  intros Hm. unfold dispatch. destruct (type d) as [|t|b]; [done| |done].
  destruct (String.eqb t "join-as-broadcaster").
  { rewrite join_as_broadcaster_body. cbn [snd streams].
    apply registry_ok_insert; [done|left; by eexists|by apply session_viewers_NoDup]. }
  destruct (String.eqb t "join-as-viewer").
  { rewrite join_as_viewer_body. cbn [snd streams].
    apply registry_ok_insert; [done| |apply set_add_NoDup; by apply session_viewers_NoDup].
    right. cbn. intros E. pose proof (set_add_elem ws (session_viewers (streams st) (streamId d))) as Hin.
    rewrite E in Hin. by apply elem_of_nil in Hin. }
  destruct (String.eqb t "request-stream").
  { by rewrite request_stream_body. }
  destruct (is_relayed t); [|done].
  by destruct (relay_cases env ws t d st) as (c & es & -> & _).
Qed.

Lemma on_message_preserves env ws f st :
  registry_ok (streams st) → registry_ok (streams (on_message env ws f st).2).
Proof.
  intros Hm. rewrite on_message_run. destruct f as [| | |d]; try done.
  change ((JSON_parse (FrameObject d) ≫= dispatch env ws) st) with (dispatch env ws d st).
  pose proof (dispatch_preserves env ws d st Hm) as Hd.
  destruct (dispatch env ws d st) as [[a|e] st']; done.
Qed.

Lemma on_close_preserves env ws st :
  registry_ok (streams st) → registry_ok (streams (on_close env ws st).2).
Proof.
  intros Hm. destruct (guard st) eqn:G.
  - apply guard_true in G as [Hk [s Hs]]. rewrite (on_close_body _ _ _ s) by done.
    cbn [snd streams]. destruct (is_empty _) eqn:E.
    + by apply registry_ok_delete.
    + apply registry_ok_insert; [done|by apply is_empty_false|].
      apply after_close_NoDup. by apply (Hm _ _ Hs).
  - by rewrite on_close_skip.
Qed.

Lemma step_preserves env ev srv :
  registry_ok (registry srv) → registry_ok (registry (step env ev srv).1).
Proof.
  intros Hm. destruct ev as [w|w fr|w|w]; cbn [step].
  - by destruct (closures srv !! w).
  - unfold run_handler. destruct (closures srv !! w) as [c|]; [|done].
    destruct (c_alive c); [|done]. cbn [fst leave registry].
    by apply on_message_preserves.
  - unfold run_handler. destruct (closures srv !! w) as [c|]; [|done].
    destruct (c_alive c); [|done]. cbn [fst leave registry].
    by apply on_close_preserves.
  - unfold run_handler. destruct (closures srv !! w) as [c|]; [|done].
    by destruct (c_alive c).
Qed.

Lemma run_preserves tr srv :
  registry_ok (registry srv) → registry_ok (registry (run tr srv)).
Proof.
  revert srv. induction tr as [|[env ev] tr IH]; intros srv Hm; [done|].
  cbn [run]. apply IH. by apply step_preserves.
Qed.

Lemma present_iff_populated m k :
  registry_ok m →
  is_Some (m !! k) ↔ is_Some (session_broadcaster m k) ∨ session_viewers m k ≠ [].
Proof.
  intros Hm. unfold session_broadcaster, session_viewers. split.
  - intros [s Hs]. rewrite Hs. cbn. by destruct (Hm k s Hs) as [Hp _].
  - destruct (m !! k) as [s|]; [by eauto|]. cbn. intros [[? [=]]|?]; done.
Qed.

Lemma delete_insert_fresh (m : gmap StreamId Session) k s :
  m !! k = None → delete k (<[k := s]> m) = m.
Proof.
  intros E. apply map_eq; intros j. destruct (decide (k = j)) as [->|Hne].
  - by rewrite lookup_delete_eq.
  - by rewrite lookup_delete_ne, lookup_insert_ne.
Qed.

Lemma join_then_close_restores env env' ws k dt tv st :
  sid_truthy k = true → streams st !! k = None →
  streams (on_close env' ws
             (on_message env ws (FrameObject (join_msg "join-as-viewer" k dt tv)) st).2).2
  = streams st.
Proof.
  intros Hk Hnone. rewrite on_message_run.
  change ((JSON_parse (FrameObject (join_msg "join-as-viewer" k dt tv))
             ≫= dispatch env ws) st)
    with (join_as_viewer ws (join_msg "join-as-viewer" k dt tv) st).
  rewrite join_as_viewer_body. cbn [snd streamId join_msg].
  unfold session_broadcaster, session_viewers. rewrite Hnone.
  cbn [mbind option_bind from_option].
  rewrite (on_close_body _ _ _ {| broadcaster := None; viewers := set_add ws [] |});
    [|done|cbn [streams currentStreamId]; by rewrite lookup_insert_eq].
  cbn [snd streams currentStreamId role after_close].
  assert (E : is_empty (with_viewers (set_delete ws)
                          {| broadcaster := None; viewers := set_add ws [] |})
              = true).
  { apply is_empty_true. split; [done|]. cbn [with_viewers viewers].
    unfold set_add, set_delete.
    rewrite decide_False by apply not_elem_of_nil. cbn [app].
    rewrite filter_cons, decide_False by (by intros ?). done. }
  rewrite E. by apply delete_insert_fresh.
Qed.

(** Claim C4. After any sequence of events handled from the empty
    server, a session is present under [k] exactly when it has a
    broadcaster or at least one viewer. A join for an id with no
    session creates one whose only member is the joining connection.
    When [on_close] passes its guard, the session of the closing
    connection is gone afterwards exactly when, after the mutation of
    the close ([after_close]), it has no broadcaster and no viewer,
    otherwise it is kept as mutated, and no other session changes. A
    registry from which [k] was deleted is the registry in which [k]
    was never created, so every handler behaves on the two alike; in
    particular a viewer that joins an unseen id and closes leaves the
    registry exactly as it found it. *)
Theorem session_present_iff_populated (tr : list (Env * Event)) :
  (∀ k, is_Some (registry (run tr initial) !! k)
        ↔ is_Some (session_broadcaster (registry (run tr initial)) k)
          ∨ session_viewers (registry (run tr initial)) k ≠ [])
  ∧ (∀ env ws t k dt tv st,
       t = "join-as-broadcaster" ∨ t = "join-as-viewer" →
       streams st !! k = None →
       ∃ s, streams (on_message env ws (FrameObject (join_msg t k dt tv)) st).2 !! k = Some s
            ∧ (broadcaster s = Some ws ∨ viewers s = [ws]))
  ∧ (∀ env ws st s,
       sid_truthy (currentStreamId st) = true →
       streams st !! currentStreamId st = Some s →
       let st' := (on_close env ws st).2 in
       let s' := after_close ws (role st) s in
       (streams st' !! currentStreamId st = None ↔ broadcaster s' = None ∧ viewers s' = [])
       ∧ (streams st' !! currentStreamId st = None ∨ streams st' !! currentStreamId st = Some s')
       ∧ ∀ j, j ≠ currentStreamId st → streams st' !! j = streams st !! j)
  ∧ (∀ (h : M ()) m k s cs r es,
       m !! k = None →
       h {| streams := delete k (<[k := s]> m); currentStreamId := cs; role := r; effects := es |}
       = h {| streams := m; currentStreamId := cs; role := r; effects := es |})
  ∧ (∀ env env' ws k dt tv st,
       sid_truthy k = true → streams st !! k = None →
       streams (on_close env' ws
                  (on_message env ws (FrameObject (join_msg "join-as-viewer" k dt tv)) st).2).2
       = streams st).
Proof.
  split_and!; [..|apply join_then_close_restores].
  - intros k. apply present_iff_populated, run_preserves. intros j s.
    cbn [initial registry]. by rewrite lookup_empty.
  - intros env ws t k dt tv st [-> | ->] Hk; rewrite on_message_run.
    + change ((JSON_parse (FrameObject (join_msg "join-as-broadcaster" k dt tv))
                 ≫= dispatch env ws) st)
        with (join_as_broadcaster ws (join_msg "join-as-broadcaster" k dt tv) st).
      rewrite join_as_broadcaster_body. cbn [snd streams streamId join_msg].
      rewrite lookup_insert_eq. eexists. split; [done|]. by left.
    + change ((JSON_parse (FrameObject (join_msg "join-as-viewer" k dt tv))
                 ≫= dispatch env ws) st)
        with (join_as_viewer ws (join_msg "join-as-viewer" k dt tv) st).
      rewrite join_as_viewer_body. cbn [snd streams streamId join_msg].
      rewrite lookup_insert_eq. eexists. split; [done|]. right.
      unfold session_viewers. rewrite Hk. reflexivity.
  - intros env ws st s Hk Hs st' s'. subst st' s'.
    rewrite (on_close_body _ _ _ s) by done. cbn [snd streams].
    destruct (is_empty _) eqn:E.
    + rewrite lookup_delete_eq. apply is_empty_true in E. split_and!; [done|by left|].
      intros j Hj. by rewrite lookup_delete_ne.
    + rewrite lookup_insert_eq. split_and!; [|by right|].
      * split; [done|]. intros HE%is_empty_true. congruence.
      * intros j Hj. by rewrite lookup_insert_ne.
  - intros h m k s cs r es Hk. by rewrite delete_insert_fresh.
Qed.

Lemma is_relayed_cases t :
  is_relayed t = true → t = "offer" ∨ t = "answer" ∨ t = "ice-candidate".
Proof.
  unfold is_relayed. rewrite !orb_true_iff, !String.eqb_eq. tauto.
Qed.

Lemma dispatch_relayed env ws t d :
  is_relayed t = true → type d = Js.Str t → dispatch env ws d = relay env ws t d.
Proof.
  intros Ht Hd. unfold dispatch. rewrite Hd.
  by destruct (is_relayed_cases t Ht) as [-> | [-> | ->]].
Qed.

(** Claim C3, as amended. A relayed [offer], [answer] or
    [ice-candidate] (the sender's stream id is truthy and has a
    session [s]; [targetViewerId] is absent or a string) is handled
    normally and leaves the registry as it was. From a broadcaster: if
    [targetViewerId] resolves to a viewer [v], the payload goes
    unchanged to [v] only; if it is absent or does not resolve, the
    payload goes to every viewer of [s] whose socket is open, and to no
    other. From a viewer: the payload goes to the broadcaster of [s],
    tagged with the sender's viewer id, if there is a broadcaster and
    its socket is open, and nowhere otherwise. *)
Theorem relay_delivery env ws t d st s :
  is_relayed t = true → type d = Js.Str t →
  sid_truthy (currentStreamId st) = true →
  streams st !! currentStreamId st = Some s →
  well_typed_target (targetViewerId d) →
  let r := on_message env ws (FrameObject d) st in
  r.1 = Normal ()
  ∧ streams r.2 = streams st
  ∧ (role st = Some Broadcaster →
     ∀ v, resolves (viewers s) (targetViewerId d) = Some v →
          effects r.2 = effects st ++ [Send v (relayed t d)])
  ∧ (role st = Some Broadcaster →
     resolves (viewers s) (targetViewerId d) = None →
     effects r.2 = effects st
       ++ ((λ v, Send v (relayed t d)) <$> List.filter (is_open env) (viewers s)))
  ∧ (role st = Some Viewer →
     effects r.2 = effects st
       ++ match broadcaster s with
          | Some b =>
            if is_open env b
            then [Send b (tagged t d (getViewerId env (streams st) ws (currentStreamId st)))]
            else []
          | None => []
          end).
Proof.
  intros Ht Hd Hk Hs Htv r. subst r. rewrite on_message_run.
  change ((JSON_parse (FrameObject d) ≫= dispatch env ws) st) with (dispatch env ws d st).
  rewrite (dispatch_relayed _ _ t) by done.
  destruct (role st) as [[|]|] eqn:Hr.
  - rewrite (relay_from_broadcaster _ _ _ _ _ s) by done. cbn [fst snd].
    split_and!; [done|done| | |done].
    + by intros _ v ->.
    + by intros _ ->.
  - rewrite (relay_from_viewer _ _ _ _ _ s) by done. cbn [fst snd].
    split_and!; done.
  - rewrite relay_no_role by done. split_and!; done.
Qed.

(** *** Positions in the viewer set *)

Lemma indexOf_lookup (vs : list Conn) i v :
  NoDup vs → vs !! i = Some v → Js.indexOf vs v = Some i.
Proof.
  intros Hn. revert i. induction Hn as [|x vs Hx Hn IH]; intros i Hi; [done|].
  cbn [Js.indexOf]. destruct i as [|i]; cbn in Hi.
  - injection Hi as ->. by rewrite decide_True.
  - rewrite decide_False.
    + by rewrite (IH i Hi).
    + intros ->. apply Hx. by eapply list_elem_of_lookup_2.
Qed.

Lemma indexOf_None (vs : list Conn) v : v ∉ vs → Js.indexOf vs v = None.
Proof.
  induction vs as [|x vs IH]; [done|]. intros Hv. cbn [Js.indexOf].
  rewrite decide_False by (intros ->; apply Hv; by left).
  rewrite IH; [done|]. intros ?. apply Hv. by right.
Qed.

Lemma set_add_lookup w (vs : list Conn) i v :
  vs !! i = Some v → set_add w vs !! i = Some v.
Proof.
  intros Hi. unfold set_add. case_decide; [done|]. by apply lookup_app_l_Some.
Qed.

Lemma set_delete_lookup_before w (vs : list Conn) i j v :
  NoDup vs → vs !! i = Some v → vs !! j = Some w → i < j →
  set_delete w vs !! i = Some v.
Proof.
  intros Hn. revert i j. induction Hn as [|x vs Hx Hn IH]; intros i j Hi Hj Hij; [done|].
  unfold set_delete. rewrite filter_cons.
  destruct j as [|j]; [lia|]. cbn in Hj.
  assert (x ≠ w) by (intros ->; apply Hx; by eapply list_elem_of_lookup_2).
  rewrite decide_True by done.
  destruct i as [|i]; [done|]. cbn in Hi |- *. apply (IH i j); [done|done|lia].
Qed.

Lemma set_delete_absent w (vs : list Conn) : w ∉ vs → set_delete w vs = vs.
Proof.
  induction vs as [|x vs IH]; [done|]. intros Hw. unfold set_delete. rewrite filter_cons.
  rewrite decide_True by (intros ->; apply Hw; by left).
  f_equal. apply IH. intros ?. apply Hw. by right.
Qed.

Lemma set_delete_lookup_after w (vs : list Conn) i j v :
  NoDup vs → vs !! i = Some v → vs !! j = Some w → j < i →
  set_delete w vs !! (i - 1) = Some v.
Proof.
  intros Hn. revert i j. induction Hn as [|x vs Hx Hn IH]; intros i j Hi Hj Hij; [done|].
  unfold set_delete. rewrite filter_cons.
  destruct i as [|i]; [lia|]. cbn in Hi. destruct j as [|j]; cbn in Hj.
  - injection Hj as ->. rewrite decide_False by (by intros ?).
    fold (set_delete w vs). rewrite set_delete_absent by done.
    by replace (S i - 1) with i by lia.
  - assert (x ≠ w) by (intros ->; apply Hx; by eapply list_elem_of_lookup_2).
    rewrite decide_True by done.
    destruct i as [|i]; [lia|]. replace (S (S i) - 1) with (S i) by lia.
    cbn [lookup list_lookup]. fold (set_delete w vs).
    specialize (IH (S i) j Hi Hj). rewrite <-IH by lia. f_equal. lia.
Qed.

Lemma getViewerId_at (env : Env) (m : gmap StreamId Session)
    (k : StreamId) (s : Session) (v : Conn) (i : nat) :
  m !! k = Some s → NoDup (viewers s) → viewers s !! i = Some v →
  getViewerId env m v k = ("viewer-" ++ Js.of_nat i)%string.
Proof.
  intros Hs Hn Hi. unfold getViewerId. by rewrite Hs, (indexOf_lookup _ i).
Qed.

Lemma resolves_own_id (env : Env) (m : gmap StreamId Session) (k : StreamId)
    (s : Session) (v : Conn) (i : nat) :
  m !! k = Some s → NoDup (viewers s) → viewers s !! i = Some v →
  resolves (viewers s) (Js.Str (getViewerId env m v k)) = Some v.
Proof.
  intros Hs Hn Hi. rewrite (getViewerId_at _ _ _ s v i) by done.
  unfold resolves. cbv [String.append]. cbn [Js.truthy String.eqb negb].
  change (String "v" (String "i" (String "e" (String "w" (String "e" (String "r"
            (String "-" (Js.of_nat i))))))))
    with ("viewer-" +:+ Js.of_nat i).
  rewrite JsFacts.replace_prefix, JsFacts.parseInt_of_nat.
  unfold Js.array_get. rewrite (proj2 (Z.leb_le 0 (Z.of_nat i))) by lia.
  by rewrite Nat2Z.id.
Qed.

(** Claim C6, as amended. The id of a viewer is ["viewer-"] followed
    by its position [i] in the viewer set in insertion order. It stays
    the same when any connection joins and when a viewer that joined
    later leaves; it goes down by one when a viewer that joined earlier
    leaves. While the set is unchanged, [findViewerById] on the id
    gives the viewer back. *)
Theorem viewer_id_is_position (env : Env) (m : gmap StreamId Session)
    (k : StreamId) (s : Session) (v : Conn) (i : nat) :
  m !! k = Some s → NoDup (viewers s) → viewers s !! i = Some v →
  getViewerId env m v k = ("viewer-" ++ Js.of_nat i)%string
  ∧ (∀ w, getViewerId env (<[k := with_viewers (set_add w) s]> m) v k
          = ("viewer-" ++ Js.of_nat i)%string)
  ∧ (∀ w j, viewers s !! j = Some w → i < j →
       getViewerId env (<[k := with_viewers (set_delete w) s]> m) v k
       = ("viewer-" ++ Js.of_nat i)%string)
  ∧ (∀ w j, viewers s !! j = Some w → j < i →
       getViewerId env (<[k := with_viewers (set_delete w) s]> m) v k
       = ("viewer-" ++ Js.of_nat (i - 1))%string)
  ∧ resolves (viewers s) (Js.Str (getViewerId env m v k)) = Some v.
Proof.
  intros Hs Hn Hi. split_and!; [..|by apply (resolves_own_id _ _ _ _ _ i)].
  - by apply (getViewerId_at _ _ _ s).
  - intros w. apply (getViewerId_at _ _ _ (with_viewers (set_add w) s)).
    + by rewrite lookup_insert_eq.
    + by apply set_add_NoDup.
    + by apply set_add_lookup.
  - intros w j Hj Hij. apply (getViewerId_at _ _ _ (with_viewers (set_delete w) s)).
    + by rewrite lookup_insert_eq.
    + by apply set_delete_NoDup.
    + by apply (set_delete_lookup_before _ _ _ j).
  - intros w j Hj Hij. apply (getViewerId_at _ _ _ (with_viewers (set_delete w) s)).
    + by rewrite lookup_insert_eq.
    + by apply set_delete_NoDup.
    + by apply (set_delete_lookup_after _ _ _ j).
Qed.

(** *** Concrete runs *)

Import Scenario.


(** Claim C3 as stated fails: with viewer [2]'s socket closing, an
    untargeted offer of the broadcaster does not reach every viewer of
    the session. *)
Lemma relay_skips_a_closing_viewer :
  ¬ (∀ v, v ∈ session_viewers (streams as_broadcaster) abc →
          Send v (relayed "offer" (offer Js.Undefined))
          ∈ effects (on_message closing_2 0 (FrameObject (offer Js.Undefined))
                       as_broadcaster).2).
Proof.
  intros H. specialize (H 2).
  assert (Hin : 2 ∈ session_viewers (streams as_broadcaster) abc).
  { vm_compute. apply list_elem_of_further, list_elem_of_here. }
  specialize (H Hin). vm_compute in H.
  apply list_elem_of_singleton in H. discriminate H.
Qed.

(** Claim C3, as amended, at work: an offer targeted at ["viewer-1"]
    goes to viewer [2] only, though its socket is closing. *)
Lemma relay_delivery_witness :
  effects (on_message closing_2 0 (FrameObject (offer (Js.Str "viewer-1"))) as_broadcaster).2
  = [Send 2 (relayed "offer" (offer (Js.Str "viewer-1")))].
Proof.
  destruct (relay_delivery closing_2 0 "offer" (offer (Js.Str "viewer-1")) as_broadcaster
              {| broadcaster := Some 0; viewers := [1; 2] |})
    as (_ & _ & H & _); [reflexivity|reflexivity|reflexivity|reflexivity|exact I|].
  apply (H eq_refl 2). reflexivity.
Defined.

(** Claim C4 at work: the last viewer of a session without
    broadcaster closes, and the session is gone. *)
Lemma session_present_iff_populated_witness :
  streams (on_close all_open 1
             {| streams := {[ abc := {| broadcaster := None; viewers := [1] |} ]};
                currentStreamId := abc; role := Some Viewer; effects := [] |}).2 !! abc
  = None.
Proof.
  destruct (session_present_iff_populated []) as (_ & _ & H & _).
  destruct (H all_open 1
              {| streams := {[ abc := {| broadcaster := None; viewers := [1] |} ]};
                 currentStreamId := abc; role := Some Viewer; effects := [] |}
              {| broadcaster := None; viewers := [1] |})
    as (Hdel & _); [reflexivity|reflexivity|].
  apply Hdel. split; reflexivity.
Defined.

(** Claim C6 as stated fails: viewer [2] is in the session before and
    after viewer [1] leaves, and its id changes from ["viewer-1"] to
    ["viewer-0"]. *)
Lemma viewer_id_changes_when_an_earlier_viewer_leaves :
  2 ∈ session_viewers two_viewers abc
  ∧ 2 ∈ session_viewers (streams (on_close all_open 1 as_viewer).2) abc
  ∧ getViewerId all_open two_viewers 2 abc
    ≠ getViewerId all_open (streams (on_close all_open 1 as_viewer).2) 2 abc.
Proof.
  split_and!.
  - vm_compute. apply list_elem_of_further, list_elem_of_here.
  - vm_compute. apply list_elem_of_here.
  - vm_compute. discriminate.
Qed.

(** Claim C6, as amended, at work. *)
Lemma viewer_id_is_position_witness :
  getViewerId all_open two_viewers 2 abc = "viewer-1".
Proof.
  destruct (viewer_id_is_position all_open two_viewers abc
              {| broadcaster := Some 0; viewers := [1; 2] |} 2 1)
    as (H & _); [reflexivity| |reflexivity|exact H].
  repeat constructor; vm_compute; intros H; inversion H; subst;
    repeat match goal with H : _ ∈ _ |- _ => inversion H; clear H; subst end.
Defined.

(** Claim C7 at work: a frame that is not JSON. *)
Lemma payload_errors_are_logged_and_dropped_witness :
  on_message all_open 0 FrameInvalid as_broadcaster
  = (Normal (), add_effects as_broadcaster [ConsoleError "Error processing message:"]).
Proof.
  destruct (payload_errors_are_logged_and_dropped all_open 0 FrameInvalid as_broadcaster)
    as (_ & H & _).
  apply (H SyntaxError as_broadcaster). reflexivity.
Defined.
End ServerFacts.

(** ** The peer-connection manager *)

Module StreamerFacts.
Import Proc Rtc Streamer.

Ltac streamer_step :=
  cbv [mbind M_bind mret M_ret gets get modify throw try_catch emit
       set_peerConnection postMessage call_update call_create];
  cbn [when andb negb fst snd peerConnection channel_open onStreamCallback
       onViewerRequest localStream next_pc effects add_effects with_peerConnection].

Lemma streamer_effects_nil st : add_effects st [] = st.
Proof. destruct st; unfold add_effects; cbn. by rewrite app_nil_r. Qed.

Section AnyBrowser.
Context `{Browser}.

Lemma handleIceCandidate_run x st pc :
  peerConnection st = Some pc →
  handleIceCandidate x st
  = match addIceCandidate pc x with
    | inl pc' =>
      (Normal (),
       with_peerConnection (add_effects st [PcCall (pc_id pc) (CAddIceCandidate x) true])
                           (Some pc'))
    | inr _ =>
      (Normal (),
       add_effects st [PcCall (pc_id pc) (CAddIceCandidate x) false;
                       ConsoleError "Error adding ICE candidate:"])
    end.
Proof.
  intros Hpc. unfold handleIceCandidate. streamer_step. rewrite Hpc.
  destruct (addIceCandidate pc x); streamer_step; [done|].
  unfold add_effects; cbn. by rewrite <-app_assoc.
Qed.





Lemma handleOffer_run x st pc :
  peerConnection st = Some pc →
  (handleOffer x st).2
  = match setRemoteDescription pc x with
    | inr _ =>
      add_effects st [PcCall (pc_id pc) (CSetRemoteDescription x) false;
                      ConsoleError "Error handling offer:"]
    | inl pc1 =>
      match createAnswer pc1 with
      | inr _ =>
        with_peerConnection
          (add_effects st [PcCall (pc_id pc) (CSetRemoteDescription x) true;
                           PcCall (pc_id pc1) CCreateAnswer false;
                           ConsoleError "Error handling offer:"])
          (Some pc1)
      | inl a =>
        match setLocalDescription pc1 a with
        | inr _ =>
          with_peerConnection
            (add_effects st [PcCall (pc_id pc) (CSetRemoteDescription x) true;
                             PcCall (pc_id pc1) CCreateAnswer true;
                             PcCall (pc_id pc1) (CSetLocalDescription a) false;
                             ConsoleError "Error handling offer:"])
            (Some pc1)
        | inl pc2 =>
          with_peerConnection
            (add_effects st
               ([PcCall (pc_id pc) (CSetRemoteDescription x) true;
                 PcCall (pc_id pc1) CCreateAnswer true;
                 PcCall (pc_id pc1) (CSetLocalDescription a) true]
                ++ if channel_open st
                   then [PostMessage {| type := "answer"; data := DDescription a |}]
                   else [ConsoleError "Error handling offer:"]))
            (Some pc2)
        end
      end
    end.
Proof.
  intros Hpc. unfold handleOffer. streamer_step. rewrite Hpc.
  destruct (setRemoteDescription pc x) as [pc1|e1]; streamer_step.
  2:{ unfold add_effects; cbn. by rewrite <-app_assoc. }
  destruct (createAnswer pc1) as [a|e2]; streamer_step.
  2:{ unfold add_effects, with_peerConnection; cbn. by rewrite <-!app_assoc. }
  destruct (setLocalDescription pc1 a) as [pc2|e3]; streamer_step.
  2:{ unfold add_effects, with_peerConnection; cbn. by rewrite <-!app_assoc. }
  destruct (channel_open st) eqn:Ho; streamer_step;
    unfold add_effects, with_peerConnection; cbn; by rewrite <-!app_assoc.
Qed.


Lemma deliver_ice c st pc :
  peerConnection st = Some pc → channel_open st = true →
  deliver (ice c) st = handleIceCandidate (DCandidate c) st.
Proof.
  intros Hpc Ho. unfold deliver. streamer_step. rewrite Ho. cbn [when].
  unfold onmessage. cbn [type ice String.eqb Ascii.eqb Bool.eqb data]. streamer_step.
  by rewrite Hpc.
Qed.

Lemma deliver_offer d st pc :
  peerConnection st = Some pc → channel_open st = true →
  deliver (offer_signal d) st = handleOffer (DDescription d) st.
Proof.
  intros Hpc Ho. unfold deliver. streamer_step. rewrite Ho. cbn [when].
  unfold onmessage. cbn [type offer_signal String.eqb Ascii.eqb Bool.eqb data]. streamer_step.
  by rewrite Hpc.
Qed.

End AnyBrowser.

Section OnW3C.
#[local] Existing Instance Rtc.W3C.browser.

Lemma candidates_applied cs : ∀ st pc,
  peerConnection st = Some pc → channel_open st = true → closed pc = false →
  is_Some (remoteDescription pc) →
  deliver_all (ice <$> cs) st
  = with_peerConnection
      (add_effects st
         ((λ c, PcCall (pc_id pc) (CAddIceCandidate (DCandidate c)) true) <$> cs))
      (Some (W3C.with_candidates pc (candidates pc ++ cs))).
Proof.
  induction cs as [|c cs IH]; intros st pc Hpc Ho Hc [d Hd].
  - cbn. rewrite streamer_effects_nil, app_nil_r. destruct st, pc; cbn in *. by subst.
  - cbn [fmap list_fmap deliver_all].
    rewrite (deliver_ice _ _ pc), (handleIceCandidate_run _ _ pc) by done.
    cbn [addIceCandidate W3C.browser W3C.addIceCandidate]. rewrite Hc, Hd. cbn [snd].
    rewrite (IH _ (W3C.with_candidates pc (candidates pc ++ [c]))); [|done|done|done|by eexists].
    unfold with_peerConnection, add_effects, W3C.with_candidates; cbn.
    by rewrite <-!app_assoc.
Qed.

Lemma candidates_dropped cs : ∀ st pc,
  peerConnection st = Some pc → channel_open st = true → closed pc = false →
  remoteDescription pc = None →
  deliver_all (ice <$> cs) st
  = add_effects st
      (cs ≫= λ c, [PcCall (pc_id pc) (CAddIceCandidate (DCandidate c)) false;
                   ConsoleError "Error adding ICE candidate:"]).
Proof.
  induction cs as [|c cs IH]; intros st pc Hpc Ho Hc Hd.
  - cbn. by rewrite streamer_effects_nil.
  - cbn [fmap list_fmap deliver_all].
    rewrite (deliver_ice _ _ pc), (handleIceCandidate_run _ _ pc) by done.
    cbn [addIceCandidate W3C.browser W3C.addIceCandidate]. rewrite Hc, Hd. cbn [snd].
    rewrite (IH _ pc) by done.
    unfold add_effects; cbn. by rewrite <-!app_assoc.
Qed.

(** Claim C1, as amended. On a browser that follows the
    recommendation, with an open peer connection and an open channel,
    every remote candidate is handed to [addIceCandidate] once, as it
    arrives. If the remote description is set, the candidates are
    applied in arrival order, each once. If it is not set, every one is
    rejected and logged and the connection is left as it was; nothing
    is kept for later, so that when an offer then sets the remote
    description the connection has no more candidates than before. *)
Theorem remote_candidates_are_applied_on_arrival
    (st : State) (pc : PeerConnection) (cs : list Candidate) :
  peerConnection st = Some pc → channel_open st = true → closed pc = false →
  let st' := deliver_all (ice <$> cs) st in
  (is_Some (remoteDescription pc) →
     peerConnection st' = Some (W3C.with_candidates pc (candidates pc ++ cs))
     ∧ effects st'
       = effects st
         ++ ((λ c, PcCall (pc_id pc) (CAddIceCandidate (DCandidate c)) true) <$> cs))
  ∧ (remoteDescription pc = None →
     peerConnection st' = Some pc
     ∧ effects st'
       = effects st
         ++ (cs ≫= λ c, [PcCall (pc_id pc) (CAddIceCandidate (DCandidate c)) false;
                         ConsoleError "Error adding ICE candidate:"])
     ∧ ∀ d, sdp_type d = Offer → signalingState pc = stable →
         ∃ pc', peerConnection (deliver (offer_signal d) st').2 = Some pc'
                ∧ remoteDescription pc' = Some d
                ∧ candidates pc' = candidates pc).
Proof.
  intros Hpc Ho Hc st'. subst st'. split.
  - intros Hd. by rewrite (candidates_applied cs st pc).
  - intros Hd. rewrite (candidates_dropped cs st pc) by done. split_and!; [done|done|].
    intros d Hty Hst.
    rewrite (deliver_offer _ _ pc), (handleOffer_run _ _ pc) by done.
    cbn [setRemoteDescription createAnswer setLocalDescription W3C.browser
         W3C.setRemoteDescription].
    rewrite Hc, Hty, Hst.
    unfold W3C.createAnswer, W3C.setLocalDescription, W3C.with_descriptions.
    cbn [closed signalingState sdp_type]. rewrite Hc.
    cbn [closed signalingState sdp_type]. rewrite ?Hc.
    eexists. split; [reflexivity|]. done.
Qed.

(** Claim C1 as stated fails: candidate ["c1"] arrives while the
    viewer's connection exists and has no remote description; the one
    call of [addIceCandidate] for it is made before
    [setRemoteDescription] and rejected, and after the offer has set
    the remote description ["c1"] is not among the candidates applied. *)
Lemma early_candidate_is_never_applied :
  ∃ pc, peerConnection (deliver_all [ice "c1"; offer_signal remote_offer] viewing) = Some pc
        ∧ remoteDescription pc = Some remote_offer
        ∧ ("c1" ∉ candidates pc)
        ∧ effects (deliver_all [ice "c1"; offer_signal remote_offer] viewing)
          = [PostMessage request_stream;
             PcCall 0 (CAddIceCandidate (DCandidate "c1")) false;
             ConsoleError "Error adding ICE candidate:";
             PcCall 0 (CSetRemoteDescription (DDescription remote_offer)) true;
             PcCall 0 CCreateAnswer true;
             PcCall 0 (CSetLocalDescription {| sdp_type := Answer; sdp := "v=0 answer 0" |}) true;
             PostMessage {| type := "answer";
                            data := DDescription {| sdp_type := Answer; sdp := "v=0 answer 0" |} |}].
Proof.
  eexists. split; [vm_compute; reflexivity|]. split_and!; [done| |done].
  cbn. apply not_elem_of_nil.
Qed.

(** Claim C1, as amended, at work: two candidates after the offer. *)
Lemma remote_candidates_are_applied_on_arrival_witness :
  ∃ pc, peerConnection (deliver_all (ice <$> ["c2"; "c3"])
                          (deliver (offer_signal remote_offer) viewing).2) = Some pc
        ∧ candidates pc = ["c2"; "c3"].
Proof.
  eexists. split.
  - refine (proj1 (proj1 (remote_candidates_are_applied_on_arrival
             (deliver (offer_signal remote_offer) viewing).2 _ ["c2"; "c3"] _ _ _) _)).
    + vm_compute. reflexivity.
    + reflexivity.
    + reflexivity.
    + vm_compute. eexists. reflexivity.
  - reflexivity.
Defined.


Lemma with_peerConnection_id st pc :
  peerConnection st = Some pc → with_peerConnection st (Some pc) = st.
Proof. destruct st; cbn. by intros ->. Qed.

Lemma addTracks_run ts : ∀ pc st,
  peerConnection st = Some pc → closed pc = false → NoDup (tracks pc ++ ts) →
  addTracks pc ts st
  = (Normal (W3C.with_tracks pc (tracks pc ++ ts)),
     with_peerConnection
       (add_effects st ((λ t, PcCall (pc_id pc) (CAddTrack t) true) <$> ts))
       (Some (W3C.with_tracks pc (tracks pc ++ ts)))).
Proof.
  induction ts as [|t ts IH]; intros pc st Hpc Hc Hn.
  - cbn. rewrite streamer_effects_nil, app_nil_r.
    assert (E : W3C.with_tracks pc (tracks pc) = pc) by (by destruct pc).
    by rewrite E, with_peerConnection_id.
  - cbn [addTracks]. streamer_step.
    cbn [addTrack W3C.browser]. unfold W3C.addTrack. rewrite Hc.
    rewrite bool_decide_false.
    2:{ apply NoDup_app in Hn as (_ & Hn & _). intros Hin. apply (Hn t Hin). by left. }
    streamer_step.
    rewrite (IH (W3C.with_tracks pc (tracks pc ++ [t]))); [| done | done |].
    + cbn [W3C.with_tracks tracks pc_id]. rewrite <-!app_assoc. cbn [app].
      unfold with_peerConnection, add_effects; cbn. by rewrite <-!app_assoc.
    + cbn [W3C.with_tracks tracks]. by rewrite <-app_assoc.
Qed.

Lemma stopBroadcast_run st :
  stopBroadcast st
  = (Normal (),
     with_peerConnection
       (add_effects st match peerConnection st with
                       | Some pc => [PcCall (pc_id pc) CClose true]
                       | None => []
                       end)
       None).
Proof.
  unfold stopBroadcast. streamer_step. destruct (peerConnection st) eqn:E; streamer_step; [done|].
  rewrite streamer_effects_nil. destruct st; cbn in *. by subst.
Qed.

Lemma viewerRequest_run st ts :
  peerConnection st = None → localStream st = Some ts → channel_open st = true →
  NoDup ts → (∃ t, t ∈ ts ∧ live t = true) →
  let n := next_pc st in
  let offer := {| sdp_type := Offer; sdp := "v=0 offer " +:+ Js.of_nat n |} in
  viewerRequest st
  = (Normal (),
     {| peerConnection :=
          Some {| pc_id := n; closed := false; signalingState := have_local_offer;
                  tracks := ts; localDescription := Some offer;
                  remoteDescription := None; candidates := [] |};
        channel_open := true; onStreamCallback := onStreamCallback st;
        onViewerRequest := onViewerRequest st; localStream := Some ts;
        next_pc := S n;
        effects := effects st ++ ((λ t, PcCall n (CAddTrack t) true) <$> ts)
                   ++ [PcCall n CCreateOffer true;
                       PcCall n (CSetLocalDescription offer) true;
                       PostMessage (offer_signal offer)] |}).
Proof.
  intros Hpc Hls Ho Hn (t & Ht & Hlive) n offer. unfold viewerRequest. streamer_step.
  rewrite Hls. cbn [default from_option id].
  rewrite bool_decide_false.
  2:{ intros E%length_zero_iff_nil.
      assert (Hin : t ∈ filter (λ t, live t = true) ts) by (by apply list_elem_of_filter).
      rewrite E in Hin. by apply elem_of_nil in Hin. }
  unfold close_current, createPeerConnection. streamer_step. rewrite Hpc. streamer_step.
  rewrite (addTracks_run ts (fresh (next_pc st))); [|done|done|done].
  streamer_step. rewrite Ho. streamer_step.
  unfold with_peerConnection, add_effects, offer_signal; cbn. subst n offer.
  rewrite Hls. do 2 f_equal. by rewrite <-!app_assoc.
Qed.

Lemma viewerRequest_no_live_track st ts :
  localStream st = Some ts → (∀ t, t ∈ ts → live t = false) →
  viewerRequest st
  = (Normal (), add_effects st [ConsoleError "No active tracks available!"]).
Proof.
  intros Hls Hdead. unfold viewerRequest. streamer_step.
  rewrite Hls. cbn [default from_option id].
  assert (E : filter (λ t, live t = true) ts = []).
  { clear Hls. induction ts as [|t ts IH]; [done|]. rewrite filter_cons.
    rewrite decide_False.
    - apply IH. intros t' Ht'. apply Hdead. by right.
    - rewrite (Hdead t) by (by left). discriminate. }
  rewrite E. by rewrite bool_decide_true.
Qed.

(** Claim C10, as amended. Take a streamer whose [startBroadcast] has
    stored the tracks [ts] and installed the viewer-request handler,
    with its channel open, on a browser that follows the
    recommendation. [stopBroadcast] closes the peer connection, if
    there is one, and sets the field to [null], and nothing else: the
    channel stays open, the handler installed, the tracks stored. A
    [request-stream] message then, if at least one stored track is
    live, creates a peer connection with a new identity, attaches every
    stored track, sets the offer created as local description and posts
    it; if none is live it writes one [console.error] and nothing else.
    After [close] the channel is closed and no message is answered. *)
Theorem stopBroadcast_keeps_answering_viewers (st : State) (ts : list Track) :
  localStream st = Some ts → onViewerRequest st = true → channel_open st = true →
  NoDup ts →
  let st1 := (stopBroadcast st).2 in
  let n := next_pc st in
  let offer := {| sdp_type := Offer; sdp := "v=0 offer " +:+ Js.of_nat n |} in
  (peerConnection st1 = None ∧ channel_open st1 = true ∧ onViewerRequest st1 = true
   ∧ localStream st1 = Some ts
   ∧ effects st1 = effects st ++ match peerConnection st with
                                 | Some pc => [PcCall (pc_id pc) CClose true]
                                 | None => []
                                 end)
  ∧ ((∃ t, t ∈ ts ∧ live t = true) →
     (deliver request_stream st1).1 = Normal ()
     ∧ peerConnection (deliver request_stream st1).2
       = Some {| pc_id := n; closed := false; signalingState := have_local_offer;
                 tracks := ts; localDescription := Some offer;
                 remoteDescription := None; candidates := [] |}
     ∧ effects (deliver request_stream st1).2
       = effects st1 ++ ((λ t, PcCall n (CAddTrack t) true) <$> ts)
         ++ [PcCall n CCreateOffer true;
             PcCall n (CSetLocalDescription offer) true;
             PostMessage (offer_signal offer)])
  ∧ ((∀ t, t ∈ ts → live t = false) →
     deliver request_stream st1
     = (Normal (), add_effects st1 [ConsoleError "No active tracks available!"]))
  ∧ (channel_open (close st).2 = false
     ∧ ∀ m, deliver m (close st).2 = (Normal (), (close st).2)).
Proof.
  intros Hls Hh Ho Hn st1 n offer. subst st1.
  rewrite stopBroadcast_run. cbn [snd].
  set (st1 := with_peerConnection _ None).
  assert (Hd : deliver request_stream st1 = viewerRequest st1).
  { unfold deliver. streamer_step. subst st1. cbn [with_peerConnection add_effects channel_open].
    rewrite Ho. cbn [when]. unfold onmessage.
    cbn [type request_stream String.eqb Ascii.eqb Bool.eqb]. streamer_step.
    by rewrite Hh. }
  rewrite Hd. split_and!; try done.
  - intros Hlive. by rewrite (viewerRequest_run st1 ts).
  - intros Hdead. by apply (viewerRequest_no_live_track st1 ts).
  - unfold close. streamer_step. rewrite stopBroadcast_run. by streamer_step.
  - intros m. unfold close. streamer_step. rewrite stopBroadcast_run. streamer_step.
    unfold deliver. by streamer_step.
Qed.

(** Claim C10 as stated fails: once the stored tracks have ended, the
    streamer whose broadcast was stopped still has its channel open and
    its handler installed, and a [request-stream] message makes it write
    an error: no peer connection, no offer. *)
Lemma no_offer_once_the_tracks_have_ended :
  channel_open (stopBroadcast broadcast_ended).2 = true
  ∧ onViewerRequest (stopBroadcast broadcast_ended).2 = true
  ∧ peerConnection (deliver request_stream (stopBroadcast broadcast_ended).2).2 = None
  ∧ effects (deliver request_stream (stopBroadcast broadcast_ended).2).2
    = effects (stopBroadcast broadcast_ended).2
      ++ [ConsoleError "No active tracks available!"].
Proof. split_and!; reflexivity. Qed.

(** Claim C10, as amended, at work: the second connection of a
    broadcaster. *)
Lemma stopBroadcast_keeps_answering_viewers_witness :
  peerConnection (deliver request_stream (stopBroadcast broadcasting).2).2
  = Some {| pc_id := 1; closed := false; signalingState := have_local_offer;
            tracks := camera;
            localDescription := Some {| sdp_type := Offer; sdp := "v=0 offer 1" |};
            remoteDescription := None; candidates := [] |}.
Proof.
  refine (proj1 (proj2 (proj1 (proj2 (stopBroadcast_keeps_answering_viewers
                                        broadcasting camera _ _ _ _)) _))).
  - reflexivity.
  - reflexivity.
  - reflexivity.
  - apply NoDup_cons. split; [|apply NoDup_singleton].
    intros E%list_elem_of_singleton. discriminate E.
  - exists {| track_id := 0; live := true |}. split; [apply list_elem_of_here|reflexivity].
Defined.

End OnW3C.

End StreamerFacts.

(** ** The session coordinator and the viewer's retry loop *)

Module CoordinatorFacts.
Import Proc Coordinator.

Ltac coord_step :=
  cbv [mbind M_bind mret M_ret gets get modify throw emit set_ws set_role
       set_localStream set_peerConnection set_reconnectAttempts set_reconnectTimeout
       set_awaiting settle failed connectWebSocket handleDisconnect socket_becomes];
  cbn [when andb negb fst snd ws role localStream peerConnection reconnectAttempts
       reconnectTimeout awaiting effects].



Lemma handleDisconnect_no_role st :
  role st = None → handleDisconnect st = (Normal (), st).
Proof.
  intros Hr. unfold handleDisconnect. coord_step. rewrite Hr.
  rewrite bool_decide_false by (by intros [? ?]). by rewrite andb_false_r.
Qed.










(** *** The viewer's retry loop *)








End CoordinatorFacts.

(** ** The adaptive bitrate controller *)

Module AbrFacts.
Import Proc Abr.








End AbrFacts.
